(** * TC.py: a single-tape Turing machine engine and a Caesar cipher

    Shallow embedding of [src/TC.py].  The class [TuringMachine] becomes a
    record whose methods are functions that take the object and return the
    mutated object next to the returned value (explicit state passing).
    Python's unbounded [int] is [Z], a Python [str] is a [string], the tape
    (a Python list of one-symbol strings) is a [list string], the
    accept-state [set] is a [gset string] and the transition [dict], keyed
    by [(state, symbol)] tuples, is a [gmap].  A call that can raise
    returns a [result] (the engine) or an [option] (the cipher); loops are
    fixpoints, with fuel where the source has a [while].  Characters are
    8-bit [ascii]: the cipher treats every character outside A-Z alike. *)

From Stdlib Require Import ZArith Ascii String.
From stdpp Require Import gmap strings list.

Local Open Scope Z_scope.

(** ** Python runtime pieces used by the engine *)

(** The only exception the engine can raise: a list index out of range. *)
Inductive exn : Type := IndexError.

(** Outcome of a call: a returned value or a raised exception. *)
Inductive result (A : Type) : Type :=
  | Return (a : A)
  | Raise (e : exn).
Arguments Return {A} a.
Arguments Raise {A} e.

(** [l[i]] on a Python list: a negative index counts from the end, and an
    index outside [-len(l) .. len(l)-1] raises (here: [None]). *)
Definition py_getitem (l : list string) (i : Z) : option string :=
  if 0 <=? i then l !! Z.to_nat i
  else if - Z.of_nat (length l) <=? i then l !! Z.to_nat (Z.of_nat (length l) + i)
  else None.

(** [l[i] = x] on a Python list, same index rules as [py_getitem]. *)
Definition py_setitem (l : list string) (i : Z) (x : string) : option (list string) :=
  if 0 <=? i then
    if i <? Z.of_nat (length l) then Some (<[Z.to_nat i := x]> l) else None
  else if - Z.of_nat (length l) <=? i
       then Some (<[Z.to_nat (Z.of_nat (length l) + i) := x]> l)
  else None.

(** [list(s)]: the characters of [s], each as a one-character string. *)
Fixpoint py_list (s : string) : list string :=
  match s with
  | EmptyString => []
  | String c rest => String c EmptyString :: py_list rest
  end.

(** [''.join(l)] *)
Fixpoint join (l : list string) : string :=
  match l with
  | [] => EmptyString
  | x :: rest => String.append x (join rest)
  end.

(** [s.rstrip(c)] for a one-character argument: drop every trailing [c]. *)
Fixpoint rstrip (c : ascii) (s : string) : string :=
  match s with
  | EmptyString => EmptyString
  | String a rest =>
      match rstrip c rest with
      | EmptyString => if Ascii.eqb a c then EmptyString else String a EmptyString
      | kept => String a kept
      end
  end.

(** ** The machine *)

Definition blank : string := "_".

Record TuringMachine : Type := mkTuringMachine {
  states : gset string;
  input_alphabet : gset string;
  tape_alphabet : gset string;
  initial_state : string;
  accept_states : gset string;
  transitions : gmap (string * string) (string * string * string);
  tape : list string;
  head_position : Z;
  current_state : string
}.

(** [TuringMachine.__init__] *)
Definition init (states input_alphabet tape_alphabet : gset string)
    (initial_state : string) (accept_states : gset string)
    (transitions : gmap (string * string) (string * string * string))
  : TuringMachine :=
  mkTuringMachine states input_alphabet tape_alphabet initial_state
    accept_states transitions [] 0 initial_state.

(** Attribute assignments [self.tape = t], [self.head_position = h],
    [self.current_state = q]. *)
Definition set_tape (m : TuringMachine) (t : list string) : TuringMachine :=
  mkTuringMachine (states m) (input_alphabet m) (tape_alphabet m)
    (initial_state m) (accept_states m) (transitions m)
    t (head_position m) (current_state m).

Definition set_head_position (m : TuringMachine) (h : Z) : TuringMachine :=
  mkTuringMachine (states m) (input_alphabet m) (tape_alphabet m)
    (initial_state m) (accept_states m) (transitions m)
    (tape m) h (current_state m).

Definition set_current_state (m : TuringMachine) (q : string) : TuringMachine :=
  mkTuringMachine (states m) (input_alphabet m) (tape_alphabet m)
    (initial_state m) (accept_states m) (transitions m)
    (tape m) (head_position m) q.

(** [TuringMachine.load_tape] *)
Definition load_tape (m : TuringMachine) (input_string : string) : TuringMachine :=
  let m := set_tape m (py_list input_string ++ [blank]) in
  let m := set_head_position m 0 in
  set_current_state m (initial_state m).

(** The loop [while self.head_position >= len(self.tape): self.tape.append('_')].
    [fuel] bounds the number of iterations; [pad_tape] supplies the number
    the loop needs, and [pad_tape_exit] shows the loop condition is false
    when it stops. *)
Fixpoint pad_loop (fuel : nat) (head : Z) (t : list string) : list string :=
  match fuel with
  | O => t
  | S fuel' =>
      if Z.of_nat (length t) <=? head then pad_loop fuel' head (t ++ [blank]) else t
  end.

Definition pad_tape (head : Z) (t : list string) : list string :=
  pad_loop (Z.to_nat (head + 1 - Z.of_nat (length t))) head t.

(** [TuringMachine.step]: the returned boolean (or the raised exception)
    and the machine as the call leaves it. *)
Definition step (m : TuringMachine) : result bool * TuringMachine :=
  if decide (current_state m ∈ accept_states m) then (Return false, m)
  else
    let m := set_tape m (pad_tape (head_position m) (tape m)) in
    match py_getitem (tape m) (head_position m) with
    | None => (Raise IndexError, m)
    | Some current_symbol =>
        match transitions m !! (current_state m, current_symbol) with
        | None => (Return false, m)
        | Some (new_state, write_symbol, direction) =>
            match py_setitem (tape m) (head_position m) write_symbol with
            | None => (Raise IndexError, m)
            | Some t =>
                let m := set_tape m t in
                let m := set_current_state m new_state in
                let m :=
                  if String.eqb direction "R" then set_head_position m (head_position m + 1)
                  else if String.eqb direction "L" then set_head_position m (head_position m - 1)
                  else m in
                let m :=
                  if head_position m <? 0
                  then set_head_position (set_tape m (blank :: tape m)) 0
                  else m in
                (Return true, m)
            end
        end
    end.

(** How the loop of [run] was left: normally or by an exception, the value
    of the local counter [steps], the number of times [step] was invoked,
    and the machine at that point. *)
Record loop_exit : Type := LoopExit {
  exit_status : result unit;
  exit_steps : Z;
  exit_calls : Z;
  exit_machine : TuringMachine
}.

(** The loop [while steps < max_steps and self.step(): steps += 1].
    [None] means the fuel ran out before the loop was left. *)
Fixpoint run_loop (fuel : nat) (max_steps steps calls : Z) (m : TuringMachine)
  : option loop_exit :=
  match fuel with
  | O => None
  | S fuel' =>
      if steps <? max_steps then
        match step m with
        | (Raise e, m') => Some (LoopExit (Raise e) steps (calls + 1) m')
        | (Return true, m') => run_loop fuel' max_steps (steps + 1) (calls + 1) m'
        | (Return false, m') => Some (LoopExit (Return tt) steps (calls + 1) m')
        end
      else Some (LoopExit (Return tt) steps calls m)
  end.

(** [TuringMachine.get_tape_content] *)
Definition get_tape_content (m : TuringMachine) : string :=
  rstrip "_"%char (join (tape m)).

(** [TuringMachine.run]: the returned string (or the exception that
    escaped) together with the loop's exit record. *)
Definition run_fuel (fuel : nat) (max_steps : Z) (m : TuringMachine)
  : option (result string * loop_exit) :=
  match run_loop fuel max_steps 0 0 m with
  | None => None
  | Some e =>
      match exit_status e with
      | Raise x => Some (Raise x, e)
      | Return _ => Some (Return (rstrip "_"%char (join (tape (exit_machine e)))), e)
      end
  end.

Definition run (max_steps : Z) (m : TuringMachine)
  : option (result string * loop_exit) :=
  run_fuel (S (Z.to_nat max_steps)) max_steps m.

(** Scenario C of the specification: the single rule (q0, A) -> (q0, A, R). *)
Definition scenario_C : TuringMachine :=
  init {["q0"%string]} {["A"%string]} {["A"%string; "_"%string]} "q0" ∅
       {[ ("q0"%string, "A"%string) := ("q0"%string, "A"%string, "R"%string) ]}.

(** Scenario B of the specification: the initial state is the only accept
    state. *)
Definition scenario_B : TuringMachine :=
  init {["q0"%string]} {["X"%string; "Y"%string; "Z"%string]}
       {["X"%string; "Y"%string; "Z"%string; "_"%string]} "q0" {["q0"%string]} ∅.

(** Scenario D of the specification: the single rule (q0, _) -> (q0, _, L). *)
Definition scenario_D : TuringMachine :=
  init {["q0"%string]} ∅ {["_"%string]} "q0" ∅
       {[ ("q0"%string, "_"%string) := ("q0"%string, "_"%string, "L"%string) ]}.

(** A machine that never halts: the single rule (q0, _) -> (q0, _, R). *)
Definition right_mover : TuringMachine :=
  init {["q0"%string]} ∅ {["_"%string]} "q0" ∅
       {[ ("q0"%string, "_"%string) := ("q0"%string, "_"%string, "R"%string) ]}.

(** ** The Caesar cipher functions *)

(** [c in s] for a one-character [c]. *)
Fixpoint str_contains (c : ascii) (s : string) : bool :=
  match s with
  | EmptyString => false
  | String a rest => if Ascii.eqb a c then true else str_contains c rest
  end.

(** [s.index(c)]: the position of the first occurrence; [None] stands for
    the [ValueError] raised when there is none. *)
Fixpoint str_index (c : ascii) (s : string) : option Z :=
  match s with
  | EmptyString => None
  | String a rest =>
      if Ascii.eqb a c then Some 0
      else match str_index c rest with
           | Some i => Some (i + 1)
           | None => None
           end
  end.

(** [s[i]] on a Python string, index rules as for lists; [None] stands
    for [IndexError]. *)
Definition str_getitem (s : string) (i : Z) : option ascii :=
  if 0 <=? i then String.get (Z.to_nat i) s
  else if - Z.of_nat (String.length s) <=? i
       then String.get (Z.to_nat (Z.of_nat (String.length s) + i)) s
  else None.

Definition alphabet : string := "ABCDEFGHIJKLMNOPQRSTUVWXYZ".

(** Body of the loop of [caesar_encrypt]: the character appended to
    [result] for [char]; [None] if an exception escapes. *)
Definition encrypt_char (char : ascii) (shift : Z) : option ascii :=
  if Ascii.eqb char " " then Some " "%char
  else if str_contains char alphabet then
    match str_index char alphabet with
    | None => None
    | Some pos =>
        let new_pos := (pos + shift) mod 26 in
        str_getitem alphabet new_pos
    end
  else Some char.

(** [caesar_encrypt]: one appended character per character of [message],
    joined at the end. *)
Fixpoint caesar_encrypt (message : string) (shift : Z) : option string :=
  match message with
  | EmptyString => Some EmptyString
  | String char rest =>
      match encrypt_char char shift, caesar_encrypt rest shift with
      | Some c, Some result => Some (String c result)
      | _, _ => None
      end
  end.

(** Body of the loop of [caesar_decrypt]. *)
Definition decrypt_char (char : ascii) (shift : Z) : option ascii :=
  if Ascii.eqb char " " then Some " "%char
  else if str_contains char alphabet then
    match str_index char alphabet with
    | None => None
    | Some pos =>
        let new_pos := (pos - shift) mod 26 in
        str_getitem alphabet new_pos
    end
  else Some char.

(** [caesar_decrypt] *)
Fixpoint caesar_decrypt (message : string) (shift : Z) : option string :=
  match message with
  | EmptyString => Some EmptyString
  | String char rest =>
      match decrypt_char char shift, caesar_decrypt rest shift with
      | Some c, Some result => Some (String c result)
      | _, _ => None
      end
  end.

(** ** Keys and sample cases *)

(** Exceptions that [parse_key] can raise. *)
Inductive key_error : Type := ValueError | TypeError.

Inductive outcome (A : Type) : Type :=
  | Returned (a : A)
  | Raised (e : key_error).
Arguments Returned {A} a.
Arguments Raised {A} e.

(** [ord(c)]: the 8-bit characters are read as the code points 0..255. *)
Definition code (c : ascii) : Z := Z.of_N (N_of_ascii c).

(** A decimal digit 0-9. *)
Definition is_decimal (c : ascii) : bool := (48 <=? code c) && (code c <=? 57).

(** [c.isdigit()]: below 256 the digits are 0-9 and the superscripts
    two, three (178, 179) and one (185). *)
Definition char_isdigit (c : ascii) : bool :=
  is_decimal c || (code c =? 178) || (code c =? 179) || (code c =? 185).

Fixpoint all_isdigit (s : string) : bool :=
  match s with
  | EmptyString => true
  | String c rest => char_isdigit c && all_isdigit rest
  end.

(** [s.isdigit()]: at least one character, and all of them digits. *)
Definition str_isdigit (s : string) : bool :=
  match s with
  | EmptyString => false
  | _ => all_isdigit s
  end.

Fixpoint decimal_value (acc : Z) (s : string) : option Z :=
  match s with
  | EmptyString => Some acc
  | String c rest =>
      if is_decimal c then decimal_value (10 * acc + (code c - 48)) rest else None
  end.

(** [int(s)] for an [s] on which [isdigit()] holds.  A superscript digit
    is no decimal digit: [ValueError].  [max_str_digits] is the
    interpreter's limit on the length of a converted string
    ([sys.get_int_max_str_digits()], 0 where there is none); it is looked
    at only above 640 digits. *)
Definition py_int (max_str_digits : nat) (s : string) : outcome Z :=
  if (640 <? String.length s)%nat && (0 <? max_str_digits)%nat
     && (max_str_digits <? String.length s)%nat
  then Raised ValueError
  else match decimal_value 0 s with
       | Some v => Returned v
       | None => Raised ValueError
       end.

(** [c.upper()] as code points: a-z and the accented lowercase letters
    move down by 32, the micro sign and y-diaeresis leave the range, the
    sharp s becomes two letters, everything else stays. *)
Definition upper_char (c : ascii) : list Z :=
  let n := code c in
  if (97 <=? n) && (n <=? 122) then [n - 32]
  else if n =? 181 then [924]
  else if n =? 223 then [83; 83]
  else if (224 <=? n) && (n <=? 254) && negb (n =? 247) then [n - 32]
  else if n =? 255 then [376]
  else [n].

(** [s.upper()] *)
Fixpoint py_upper (s : string) : list Z :=
  match s with
  | EmptyString => []
  | String c rest => upper_char c ++ py_upper rest
  end.

(** [ord(s)]: [TypeError] unless [s] has exactly one character. *)
Definition py_ord (s : list Z) : outcome Z :=
  match s with
  | [n] => Returned n
  | _ => Raised TypeError
  end.

(** [parse_key] *)
Definition parse_key (max_str_digits : nat) (key_str : string) : outcome Z :=
  if str_isdigit key_str then py_int max_str_digits key_str
  else match py_ord (py_upper key_str) with
       | Returned n => Returned (n - 65 + 1)
       | Raised e => Raised e
       end.

(** [key_part, message_part = s.split('#', 1)]: the parts before and after
    the first '#'; [None] stands for the [ValueError] of unpacking a
    one-element list when there is no '#'. *)
Fixpoint split_hash (s : string) : option (string * string) :=
  match s with
  | EmptyString => None
  | String c rest =>
      if Ascii.eqb c "#" then Some (EmptyString, rest)
      else match split_hash rest with
           | Some (key_part, message_part) => Some (String c key_part, message_part)
           | None => None
           end
  end.

(** The list [casos_encriptar] of [generate_correct_decrypt_cases]. *)
Definition casos_encriptar : list string :=
  [ "3#ROMA NO FUE CONSTRUIDA EN UN DIA";
    "1#HOLA MUNDO";
    "5#PYTHON ES GENIAL";
    "D#CESAR FUE UN EMPERADOR";
    "13#ESTE ES UN MENSAJE SECRETO";
    "7#LA TEORIA DE LA COMPUTACION ES FASCINANTE";
    "B#MAQUINA DE TURING";
    "10#ALGORITMOS Y ESTRUCTURAS DE DATOS";
    "A#PROYECTO DE TEORIA DE LA COMPUTACION";
    "Z#CIFRADO CESAR ES SIMPLE PERO INTERESANTE" ]%string.

(** Body of the loop of [generate_correct_decrypt_cases]: the line
    appended for [caso]; [None] if an exception escapes. *)
Definition decrypt_case (max_str_digits : nat) (caso : string) : option string :=
  match split_hash caso with
  | None => None
  | Some (key_part, message_part) =>
      match parse_key max_str_digits key_part with
      | Raised _ => None
      | Returned shift =>
          match caesar_encrypt message_part shift with
          | None => None
          | Some encrypted =>
              Some (String.append key_part (String "#" encrypted))
          end
      end
  end.

(** The loop of [generate_correct_decrypt_cases] over a list of cases. *)
Fixpoint decrypt_cases (max_str_digits : nat) (casos : list string)
  : option (list string) :=
  match casos with
  | [] => Some []
  | caso :: rest =>
      match decrypt_case max_str_digits caso, decrypt_cases max_str_digits rest with
      | Some line, Some lines => Some (line :: lines)
      | _, _ => None
      end
  end.

(** [generate_correct_decrypt_cases] *)
Definition generate_correct_decrypt_cases (max_str_digits : nat)
  : option (list string) :=
  decrypt_cases max_str_digits casos_encriptar.

(** ** Words of the specification, for comparison with the code *)

(** The tape "after right-padding with blanks": blanks are appended until
    the cell under the head exists. *)
Definition padded_tape (m : TuringMachine) : list string :=
  tape m ++ replicate (Z.to_nat (head_position m + 1 - Z.of_nat (length (tape m)))) blank.

(** Section 4.2, step 4, with the movement rules of section 4.1: write the
    symbol at the head, take the new state, then move; moving Left from
    cell 0 inserts one blank in front and leaves the head on cell 0. *)
Definition apply_rule (m : TuringMachine) (rule : string * string * string)
  : TuringMachine :=
  let '(new_state, write_symbol, direction) := rule in
  let h := head_position m in
  let written := <[Z.to_nat h := write_symbol]> (padded_tape m) in
  mkTuringMachine (states m) (input_alphabet m) (tape_alphabet m)
    (initial_state m) (accept_states m) (transitions m)
    (if String.eqb direction "L" && (h =? 0) then blank :: written else written)
    (if String.eqb direction "R" then h + 1
     else if String.eqb direction "L" then Z.max 0 (h - 1)
     else h)
    new_state.

(** The six constructor arguments: what the specification calls the
    machine's specification. *)
Definition same_spec (m1 m2 : TuringMachine) : Prop :=
  states m1 = states m2 ∧ input_alphabet m1 = input_alphabet m2 ∧
  tape_alphabet m1 = tape_alphabet m2 ∧ initial_state m1 = initial_state m2 ∧
  accept_states m1 = accept_states m2 ∧ transitions m1 = transitions m2.

(** The machine after [n] consecutive calls of [step], whatever each call
    returned. *)
Fixpoint step_calls (n : nat) (m : TuringMachine) : TuringMachine :=
  match n with
  | O => m
  | S n' => step_calls n' (step m).2
  end.

(** The head is on a tape cell or just past the last one. *)
Definition head_in_reach (m : TuringMachine) : Prop :=
  0 <= head_position m <= Z.of_nat (length (tape m)).

(** [k] blank characters. *)
Fixpoint blanks (k : nat) : string :=
  match k with
  | O => EmptyString
  | S k' => String "_" (blanks k')
  end.

(** "Trailing blank symbols stripped, leading blanks preserved":
    [content] is [joined] without its final run of blanks, it does not end
    in a blank, and blanks in front of a non-blank character stay. *)
Definition trailing_blanks_stripped (joined content : string) : Prop :=
  (∃ k, joined = String.append content (blanks k)) ∧
  (∀ s', content ≠ String.append s' "_") ∧
  (∀ k c rest, c ≠ "_"%char →
     joined = String.append (blanks k) (String c rest) →
     ∃ rest', content = String.append (blanks k) (String c rest')).

(** What links a case to the line generated from it: same key, and the
    text of the line decrypts, with the shift of that key, to the text of
    the case. *)
Definition decrypts_back (max_str_digits : nat) (caso line : string) : Prop :=
  ∃ key_part message_part encrypted shift,
    split_hash caso = Some (key_part, message_part) ∧
    split_hash line = Some (key_part, encrypted) ∧
    parse_key max_str_digits key_part = Returned shift ∧
    caesar_decrypt encrypted shift = Some message_part.

(** The loaded machine with its head moved to cell [i]. *)
Definition scanning (m : TuringMachine) (s : string) (i : nat) : TuringMachine :=
  set_head_position (load_tape m s) (Z.of_nat i).

(** * Properties *)

(** ** The padding loop *)

Lemma pad_loop_replicate (h : Z) (n : nat) : ∀ t : list string,
  n = Z.to_nat (h + 1 - Z.of_nat (length t)) →
  pad_loop n h t = t ++ replicate n blank.
Proof.
  induction n as [|n IH]; intros t Hn; simpl.
  - by rewrite app_nil_r.
  - destruct (Z.leb_spec (Z.of_nat (length t)) h) as [_|Hlt]; [|lia].
    rewrite IH.
    + by rewrite <- app_assoc.
    + rewrite length_app. simpl. lia.
Qed.

Lemma pad_tape_padded (m : TuringMachine) :
  pad_tape (head_position m) (tape m) = padded_tape m.
Proof. unfold pad_tape, padded_tape. by apply pad_loop_replicate. Qed.

Lemma length_padded_tape (m : TuringMachine) :
  Z.of_nat (length (padded_tape m))
  = Z.max (Z.of_nat (length (tape m))) (head_position m + 1).
Proof. unfold padded_tape. rewrite length_app, length_replicate. lia. Qed.

(** The loop stops with its condition false: the fuel of [pad_tape] is enough. *)
Lemma pad_tape_exit (m : TuringMachine) :
  head_position m < Z.of_nat (length (pad_tape (head_position m) (tape m))).
Proof. rewrite pad_tape_padded, length_padded_tape. lia. Qed.

Lemma padded_tape_id (m : TuringMachine) :
  head_position m < Z.of_nat (length (tape m)) → padded_tape m = tape m.
Proof.
  intros H. unfold padded_tape.
  replace (Z.to_nat _) with 0%nat by lia. apply app_nil_r.
Qed.

Lemma padded_lookup (m : TuringMachine) :
  0 <= head_position m → is_Some (padded_tape m !! Z.to_nat (head_position m)).
Proof.
  intros H. apply lookup_lt_is_Some.
  pose proof (length_padded_tape m). lia.
Qed.

(** ** One step from a configuration whose head is not negative *)

Lemma py_getitem_nonneg (l : list string) (i : Z) :
  0 <= i → py_getitem l i = l !! Z.to_nat i.
Proof. intros H. unfold py_getitem. by destruct (Z.leb_spec 0 i); [|lia]. Qed.

Lemma py_setitem_nonneg (l : list string) (i : Z) (x : string) :
  0 <= i < Z.of_nat (length l) → py_setitem l i x = Some (<[Z.to_nat i := x]> l).
Proof.
  intros H. unfold py_setitem.
  destruct (Z.leb_spec 0 i); [|lia]. by destruct (Z.ltb_spec i (Z.of_nat (length l))); [|lia].
Qed.

Lemma step_accept (m : TuringMachine) :
  current_state m ∈ accept_states m → step m = (Return false, m).
Proof. intros H. unfold step. by rewrite decide_True. Qed.

Lemma step_no_rule (m : TuringMachine) (sym : string) :
  0 <= head_position m →
  current_state m ∉ accept_states m →
  padded_tape m !! Z.to_nat (head_position m) = Some sym →
  transitions m !! (current_state m, sym) = None →
  step m = (Return false, set_tape m (padded_tape m)).
Proof.
  intros Hh Hacc Hsym Hnone. unfold step. rewrite decide_False by done.
  cbn [set_tape tape head_position current_state transitions].
  rewrite pad_tape_padded, py_getitem_nonneg, Hsym by done.
  by rewrite Hnone.
Qed.

Lemma step_rule (m : TuringMachine) (sym : string) (rule : string * string * string) :
  0 <= head_position m →
  current_state m ∉ accept_states m →
  padded_tape m !! Z.to_nat (head_position m) = Some sym →
  transitions m !! (current_state m, sym) = Some rule →
  step m = (Return true, apply_rule m rule).
Proof.
  intros Hh Hacc Hsym Hrule. unfold step. rewrite decide_False by done.
  cbn [set_tape tape head_position current_state transitions].
  rewrite pad_tape_padded, py_getitem_nonneg, Hsym by done.
  rewrite Hrule. destruct rule as [[q w] d].
  rewrite py_setitem_nonneg by (pose proof (length_padded_tape m); lia).
  unfold apply_rule.
  destruct (String.eqb d "R") eqn:HR.
  - apply String.eqb_eq in HR as ->. simpl.
    destruct (Z.ltb_spec (head_position m + 1) 0); [lia|]. done.
  - destruct (String.eqb d "L") eqn:HL; simpl.
    + destruct (Z.ltb_spec (head_position m - 1) 0), (Z.eqb_spec (head_position m) 0);
        try lia; unfold set_head_position, set_tape; simpl; do 2 f_equal; lia.
    + destruct (Z.ltb_spec (head_position m) 0); [lia|].
      by destruct m.
Qed.

(** Every call of [step] on a configuration with a non-negative head
    returns a boolean, by one of three paths. *)
Lemma step_cases (m : TuringMachine) :
  0 <= head_position m →
  (current_state m ∈ accept_states m ∧ step m = (Return false, m)) ∨
  ((current_state m ∉ accept_states m) ∧
   ∃ sym, padded_tape m !! Z.to_nat (head_position m) = Some sym ∧
     ((transitions m !! (current_state m, sym) = None ∧
       step m = (Return false, set_tape m (padded_tape m))) ∨
      (∃ rule, transitions m !! (current_state m, sym) = Some rule ∧
       step m = (Return true, apply_rule m rule)))).
Proof.
  intros Hh.
  destruct (decide (current_state m ∈ accept_states m)) as [Hacc|Hacc].
  - left. split; [done|]. by apply step_accept.
  - right. split; [done|].
    destruct (padded_lookup m Hh) as [sym Hsym]. exists sym. split; [done|].
    destruct (transitions m !! (current_state m, sym)) as [rule|] eqn:Hrule.
    + right. exists rule. split; [done|]. by apply step_rule with sym.
    + left. split; [done|]. by apply step_no_rule with sym.
Qed.

Lemma apply_rule_head_in_reach (m : TuringMachine) (rule : string * string * string) :
  0 <= head_position m → head_in_reach (apply_rule m rule).
Proof.
  intros Hh. destruct rule as [[q w] d]. unfold head_in_reach, apply_rule.
  cbn [tape head_position].
  pose proof (length_padded_tape m) as Hlen.
  assert (Hw : length (<[Z.to_nat (head_position m) := w]> (padded_tape m))
               = length (padded_tape m)) by apply length_insert.
  destruct (String.eqb d "R"), (String.eqb d "L"), (Z.eqb_spec (head_position m) 0);
    cbn [andb length]; lia.
Qed.

Lemma step_head_in_reach (m : TuringMachine) :
  head_in_reach m →
  head_in_reach (step m).2 ∧ ∃ b, (step m).1 = Return b.
Proof.
  intros Hm. destruct (step_cases m) as [[_ ->]|[_ (sym & _ & [[_ ->]|(rule & _ & ->)])]];
    [apply Hm| | |]; cbn [fst snd].
  - split; [done|by exists false].
  - split; [|by exists false].
    unfold head_in_reach. cbn [set_tape tape head_position].
    pose proof (length_padded_tape m). unfold head_in_reach in Hm. lia.
  - split; [|by exists true]. apply apply_rule_head_in_reach, Hm.
Qed.

Lemma load_tape_head_in_reach (m : TuringMachine) (s : string) :
  head_in_reach (load_tape m s).
Proof. unfold head_in_reach, load_tape. cbn. rewrite length_app. simpl. lia. Qed.

Lemma step_calls_head_in_reach (n : nat) : ∀ m : TuringMachine,
  head_in_reach m → head_in_reach (step_calls n m).
Proof.
  induction n as [|n IH]; intros m Hm; [done|].
  simpl. apply IH. by apply step_head_in_reach.
Qed.

(** Goals about [same_spec]: open every hypothesis of that shape and
    compare field by field. *)
Ltac same_spec_fields :=
  repeat match goal with
         | H : same_spec _ _ |- _ => destruct H as (?&?&?&?&?&?)
         end;
  repeat split; cbn in *; congruence.

(** [step] never touches the six constructor arguments. *)
Lemma step_same_spec (m : TuringMachine) : same_spec (step m).2 m.
Proof.
  unfold step. destruct (decide _); [done|].
  cbn [set_tape tape head_position current_state transitions].
  destruct (py_getitem _ _); [|done].
  destruct (transitions m !! _) as [[[q w] d]|]; [|done].
  destruct (py_setitem _ _ _); [|done].
  destruct (String.eqb d "R"); [|destruct (String.eqb d "L")];
    cbn [set_head_position set_tape set_current_state head_position tape];
    by destruct (_ <? 0).
Qed.

Lemma step_calls_same_spec (n : nat) : ∀ m : TuringMachine,
  same_spec (step_calls n m) m.
Proof.
  induction n as [|n IH]; intros m; [done|].
  simpl. pose proof (IH (step m).2). pose proof (step_same_spec m).
  same_spec_fields.
Qed.

(** [load_tape] overwrites every mutable attribute: the loaded machine
    depends on the constructor arguments and the input only. *)
Lemma load_tape_same_spec (m1 m2 : TuringMachine) (s : string) :
  same_spec m1 m2 → load_tape m1 s = load_tape m2 s.
Proof.
  intros (?&?&?&?&?&?). unfold load_tape, set_current_state, set_head_position, set_tape.
  cbn. congruence.
Qed.

Lemma join_py_list (s : string) : join (py_list s) = s.
Proof. induction s as [|c s IH]; [done|]. simpl. by rewrite IH. Qed.

Lemma length_py_list (s : string) : length (py_list s) = String.length s.
Proof. induction s as [|c s IH]; [done|]. simpl. by rewrite IH. Qed.

Lemma append_String (c : ascii) (s1 s2 : string) :
  String.append (String c s1) s2 = String c (String.append s1 s2).
Proof. reflexivity. Qed.

Lemma append_assoc (s1 s2 s3 : string) :
  String.append s1 (String.append s2 s3) = String.append (String.append s1 s2) s3.
Proof.
  induction s1 as [|c s1 IH]; [done|].
  by rewrite !append_String, IH.
Qed.

Lemma join_app (l1 l2 : list string) :
  join (l1 ++ l2) = String.append (join l1) (join l2).
Proof.
  induction l1 as [|x l1 IH]; [done|].
  simpl. by rewrite IH, append_assoc.
Qed.

(** ** Claims about [step] and [load_tape] *)

(** C1. From any configuration (head a zero-based index), [step] returns
    [False] exactly when the current state is an accept state or the
    transition table has no entry for the current state and the symbol
    under the head of the blank-padded tape; otherwise it applies the one
    matching rule and returns [True]. *)
Theorem step_halts_iff (m : TuringMachine) :
  0 <= head_position m →
  ∃ sym, padded_tape m !! Z.to_nat (head_position m) = Some sym ∧
    let halted := current_state m ∈ accept_states m ∨
                  transitions m !! (current_state m, sym) = None in
    ((step m).1 = Return false ↔ halted) ∧
    (¬ halted →
     ∃ rule, transitions m !! (current_state m, sym) = Some rule ∧
       (∀ rule', transitions m !! (current_state m, sym) = Some rule' → rule' = rule) ∧
       step m = (Return true, apply_rule m rule)).
Proof.
  intros Hh. destruct (padded_lookup m Hh) as [sym Hsym].
  exists sym. split; [done|]. cbn zeta.
  destruct (step_cases m Hh) as [[Hacc Hst]|[Hacc (sym' & Hsym' & Hst)]].
  - rewrite Hst. split; [by split; [left|]|]. intros Hn. destruct Hn. by left.
  - assert (sym' = sym) as -> by congruence.
    destruct Hst as [[Hnone ->]|(rule & Hrule & ->)]; cbn [fst].
    + split; [by split; [right|]|]. intros Hn. destruct Hn. by right.
    + split.
      * split; [done|]. intros [?|?]; [done|congruence].
      * intros _. exists rule. repeat split; [done|congruence].
Qed.

Lemma step_halts_iff_witness :
  0 <= head_position (load_tape scenario_C "AAA") ∧
  (step (load_tape scenario_C "AAA")).1 ≠ Return false ∧
  step (load_tape scenario_C "AAA")
  = (Return true,
     apply_rule (load_tape scenario_C "AAA") ("q0"%string, "A"%string, "R"%string)).
Proof.
  assert (H : 0 <= head_position (load_tape scenario_C "AAA")) by (simpl; lia).
  split; [exact H|].
  destruct (step_halts_iff (load_tape scenario_C "AAA") H) as (sym & Hsym & Hiff & Hrule).
  assert (sym = "A"%string) as -> by (vm_compute in Hsym; congruence).
  assert (Hrun : ¬ (current_state (load_tape scenario_C "AAA")
                      ∈ accept_states (load_tape scenario_C "AAA") ∨
                    transitions (load_tape scenario_C "AAA")
                      !! (current_state (load_tape scenario_C "AAA"), "A"%string) = None)).
  { intros [Hacc|Hnone].
    - revert Hacc. apply (bool_decide_unpack _). vm_compute. exact I.
    - vm_compute in Hnone. discriminate Hnone. }
  split; [intros Hf; exact (Hrun (proj1 Hiff Hf))|].
  destruct (Hrule Hrun) as (rule & Hlook & _ & Hstep).
  assert (rule = ("q0"%string, "A"%string, "R"%string)) as ->
    by (vm_compute in Hlook; congruence).
  exact Hstep.
Defined.

(** C6. In an accept state [step] returns [False] and leaves the machine
    exactly as it was: tape (no padding), head position and state.  The
    tape is not read: the equation holds for every tape and head, also
    where reading the cell under the head would raise. *)
Theorem step_accept_frame (m : TuringMachine) :
  current_state m ∈ accept_states m →
  step m = (Return false, m) ∧
  tape (step m).2 = tape m ∧
  head_position (step m).2 = head_position m ∧
  current_state (step m).2 = current_state m.
Proof. intros H. by rewrite (step_accept m H). Qed.

Lemma step_accept_frame_witness :
  current_state (load_tape scenario_B "XYZ") ∈ accept_states (load_tape scenario_B "XYZ") ∧
  step (load_tape scenario_B "XYZ") = (Return false, load_tape scenario_B "XYZ").
Proof.
  assert (H : current_state (load_tape scenario_B "XYZ")
              ∈ accept_states (load_tape scenario_B "XYZ"))
    by (apply (bool_decide_unpack _); vm_compute; exact I).
  split; [exact H|]. exact (proj1 (step_accept_frame _ H)).
Defined.

(** C5. A transition with direction Left taken at head index 0 puts
    exactly one blank in front of the tape and leaves the head at index 0;
    every cell of the tape as it was after the write is found one place
    to the right. *)
Theorem left_growth (m : TuringMachine) (sym new_state write_symbol : string) :
  head_position m = 0 →
  current_state m ∉ accept_states m →
  padded_tape m !! 0%nat = Some sym →
  transitions m !! (current_state m, sym) = Some (new_state, write_symbol, "L"%string) →
  let written := <[0%nat := write_symbol]> (padded_tape m) in
  (step m).1 = Return true ∧
  tape (step m).2 = blank :: written ∧
  length (tape (step m).2) = S (length written) ∧
  head_position (step m).2 = 0 ∧
  (∀ i : nat, tape (step m).2 !! S i = written !! i) ∧
  (tape m ≠ [] → padded_tape m = tape m).
Proof.
  intros Hh Hacc Hsym Hrule written.
  assert (Hst : step m = (Return true, apply_rule m (new_state, write_symbol, "L"%string))).
  { apply step_rule with sym; [lia|done| |done]. by rewrite Hh. }
  rewrite Hst. unfold apply_rule. cbn [fst snd tape head_position].
  rewrite Hh. change (Z.to_nat 0) with 0%nat. fold written.
  repeat split.
  intros Hne. apply padded_tape_id. rewrite Hh. destruct (tape m); [done|]. simpl. lia.
Qed.

Lemma left_growth_witness :
  head_position (load_tape scenario_D "") = 0 ∧
  tape (step (load_tape scenario_D "")).2 = ["_"; "_"]%string ∧
  head_position (step (load_tape scenario_D "")).2 = 0.
Proof.
  assert (H1 : head_position (load_tape scenario_D "") = 0) by reflexivity.
  assert (H2 : current_state (load_tape scenario_D "") ∉ accept_states (load_tape scenario_D ""))
    by (apply (bool_decide_unpack _); vm_compute; exact I).
  assert (H3 : padded_tape (load_tape scenario_D "") !! 0%nat = Some "_"%string) by reflexivity.
  assert (H4 : transitions (load_tape scenario_D "")
                 !! (current_state (load_tape scenario_D ""), "_"%string)
               = Some ("q0"%string, "_"%string, "L"%string)) by (vm_compute; reflexivity).
  destruct (left_growth _ _ _ _ H1 H2 H3 H4) as (_ & Ht & _ & Hh & _).
  split; [exact H1|]. split; [exact Ht|exact Hh].
Defined.

(** C8. [load_tape(s)] sets the tape to the characters of [s] followed by
    one blank, the head to 0 and the state to the initial state; nothing
    of an earlier run survives, whatever calls of [step] came before. *)
Theorem load_tape_resets (m : TuringMachine) (s : string) :
  tape (load_tape m s) = py_list s ++ [blank] ∧
  join (tape (load_tape m s)) = String.append s "_" ∧
  length (tape (load_tape m s)) = S (String.length s) ∧
  head_position (load_tape m s) = 0 ∧
  current_state (load_tape m s) = initial_state m ∧
  same_spec (load_tape m s) m ∧
  (∀ (n : nat) (s0 : string),
     load_tape (step_calls n (load_tape m s0)) s = load_tape m s).
Proof.
  split; [done|]. split.
  { cbn [load_tape set_tape set_head_position set_current_state tape].
    rewrite join_app, join_py_list. done. }
  split.
  { cbn [load_tape set_tape set_head_position set_current_state tape].
    rewrite length_app, length_py_list. simpl. lia. }
  do 3 (split; [done|]).
  intros n s0. apply load_tape_same_spec.
  pose proof (step_calls_same_spec n (load_tape m s0)). same_spec_fields.
Qed.

(** One call of [step] on a non-empty tape with the head in reach: the
    tape keeps its cells or gains one, and the head moves by at most one. *)
Lemma step_growth (m : TuringMachine) :
  head_in_reach m → tape m ≠ [] →
  (length (tape m) ≤ length (tape (step m).2) ≤ S (length (tape m)))%nat ∧
  head_position m - 1 <= head_position (step m).2 <= head_position m + 1.
Proof.
  intros [Hh Hlen] Hne.
  assert (Hpos : (0 < length (tape m))%nat) by (destruct (tape m); [done|simpl; lia]).
  pose proof (length_padded_tape m) as Hpad.
  destruct (step_cases m Hh) as [[_ ->]|[_ (sym & _ & [[_ ->]|(rule & _ & ->)])]];
    cbn [fst snd set_tape tape head_position].
  - lia.
  - lia.
  - destruct rule as [[q w] d]. unfold apply_rule. cbn [tape head_position].
    assert (Hw : length (<[Z.to_nat (head_position m) := w]> (padded_tape m))
                 = length (padded_tape m)) by apply length_insert.
    destruct (String.eqb d "R"), (String.eqb d "L"), (Z.eqb_spec (head_position m) 0);
      cbn [andb length]; lia.
Qed.

Lemma step_calls_growth (n : nat) : ∀ m : TuringMachine,
  head_in_reach m → tape m ≠ [] →
  (length (tape m) ≤ length (tape (step_calls n m)) ≤ length (tape m) + n)%nat ∧
  head_position (step_calls n m) <= head_position m + Z.of_nat n.
Proof.
  induction n as [|n IH]; intros m Hm Hne; [simpl; lia|].
  destruct (step_growth m Hm Hne) as [Hlen Hhead].
  destruct (IH (step m).2) as [Hlen' Hhead'].
  - by apply step_head_in_reach.
  - intros Hnil. rewrite Hnil in Hlen. destruct (tape m); [done|simpl in Hlen; lia].
  - cbn [step_calls]. lia.
Qed.

(** C2, as the specification has it, fails: one step of [right_mover] from
    the loaded empty input moves Right from the last (only) cell and leaves
    the head at index 1 on a tape of length 1. *)
Lemma head_below_length_fails :
  ¬ (0 <= head_position (step_calls 1 (load_tape right_mover ""))
     < Z.of_nat (length (tape (step_calls 1 (load_tape right_mover ""))))).
Proof.
  change (step_calls 1 (load_tape right_mover ""))
    with (step (load_tape right_mover "")).2.
  replace (step (load_tape right_mover "")).2
    with (set_head_position (load_tape right_mover "") 1) by (vm_compute; reflexivity).
  cbn. lia.
Qed.

(** Where the head stands just past the last cell, the padded tape is the
    tape with one blank appended, and that blank is the cell under the
    head. *)
Lemma padded_tape_at_end (m : TuringMachine) :
  head_position m = Z.of_nat (length (tape m)) →
  padded_tape m = tape m ++ [blank] ∧
  padded_tape m !! Z.to_nat (head_position m) = Some blank.
Proof.
  intros Hh.
  assert (Hpad : padded_tape m = tape m ++ [blank]).
  { unfold padded_tape. by replace (Z.to_nat _) with 1%nat by lia. }
  split; [done|]. rewrite Hpad, Hh, Nat2Z.id.
  by rewrite lookup_app_r, Nat.sub_diag.
Qed.

(** C2, amended. After [load_tape] and any number of [step] calls the head
    satisfies 0 <= head <= len(tape) and no call raises.  A step that moves
    Right from the last cell leaves head = len(tape) and appends nothing:
    the tape is the old one with the written symbol.  With the head there,
    a call in an accept state leaves the tape as it is, and a call that
    reads the tape appends exactly one cell, the blank it reads, keeping
    every older cell. *)
Theorem head_in_reach_after_steps (m : TuringMachine) (s : string) (n : nat) :
  let m' := step_calls n (load_tape m s) in
  0 <= head_position m' <= Z.of_nat (length (tape m')) ∧
  (∃ b, (step m').1 = Return b) ∧
  (current_state m' ∈ accept_states m' → tape (step m').2 = tape m') ∧
  (∀ sym new_state write_symbol,
     current_state m' ∉ accept_states m' →
     tape m' !! Z.to_nat (head_position m') = Some sym →
     transitions m' !! (current_state m', sym) = Some (new_state, write_symbol, "R"%string) →
     Z.of_nat (length (tape m')) = head_position m' + 1 →
     head_position (step m').2 = Z.of_nat (length (tape (step m').2)) ∧
     tape (step m').2 = <[Z.to_nat (head_position m') := write_symbol]> (tape m')) ∧
  (current_state m' ∉ accept_states m' →
   head_position m' = Z.of_nat (length (tape m')) →
   length (tape (step m').2) = S (length (tape m')) ∧
   take (length (tape m')) (tape (step m').2) = tape m' ∧
   (tape (step m').2 !! length (tape m') = Some blank ∨
    ∃ new_state write_symbol direction,
      transitions m' !! (current_state m', blank)
      = Some (new_state, write_symbol, direction) ∧
      tape (step m').2 !! length (tape m') = Some write_symbol)).
Proof.
  intros m'.
  assert (Hm' : head_in_reach m')
    by apply step_calls_head_in_reach, load_tape_head_in_reach.
  assert (Hlen : (1 ≤ length (tape m'))%nat).
  { destruct (step_calls_growth n (load_tape m s)) as [Hg _].
    - apply load_tape_head_in_reach.
    - cbn. by destruct (py_list s).
    - fold m' in Hg. cbn in Hg. rewrite length_app in Hg. simpl in Hg. lia. }
  split; [exact Hm'|]. split; [by apply step_head_in_reach|].
  split; [intros Hacc; by rewrite (step_accept m' Hacc)|].
  split.
  - intros sym q w Hacc Hsym Hrule Hlast.
    assert (Hpad : padded_tape m' = tape m') by (apply padded_tape_id; lia).
    rewrite (step_rule m' sym (q, w, "R"%string)); [|apply Hm'|done|by rewrite Hpad|done].
    unfold apply_rule. cbn [snd head_position tape String.eqb Ascii.eqb Bool.eqb andb].
    rewrite Hpad, length_insert. split; [lia|done].
  - intros Hacc Hend.
    destruct (padded_tape_at_end m' Hend) as [Hpad Hblank].
    assert (Hnat : Z.to_nat (head_position m') = length (tape m')) by lia.
    destruct (transitions m' !! (current_state m', blank)) as [[[q w] d]|] eqn:Hrule.
    + rewrite (step_rule m' blank (q, w, d)); [|apply Hm'|done..].
      unfold apply_rule. cbn [snd tape].
      replace (head_position m' =? 0) with false by lia.
      rewrite andb_false_r, Hpad, Hnat.
      split; [rewrite length_insert, length_app; simpl; lia|].
      split; [by rewrite take_insert_ge, take_app_length|].
      right. exists q, w, d. split; [done|].
      apply list_lookup_insert_eq. rewrite length_app. simpl. lia.
    + rewrite (step_no_rule m' blank); [|apply Hm'|done..].
      cbn [snd set_tape tape]. rewrite Hpad.
      split; [rewrite length_app; simpl; lia|].
      split; [by rewrite take_app_length|].
      left. by rewrite lookup_app_r, Nat.sub_diag.
Qed.

(** The bound is reached: on the loaded empty input of [right_mover] the
    first call moves Right from the only cell and appends nothing, and
    the second call appends the blank it reads. *)
Lemma head_in_reach_after_steps_witness :
  (head_position (step (load_tape right_mover "")).2 = 1 ∧
   length (tape (step (load_tape right_mover "")).2) = 1%nat) ∧
  length (tape (step (step_calls 1 (load_tape right_mover ""))).2) = 2%nat.
Proof.
  split.
  - destruct (head_in_reach_after_steps right_mover "" 0) as (_ & _ & _ & Hlast & _).
    cbn [step_calls] in Hlast.
    assert (Hacc : current_state (load_tape right_mover "")
                   ∉ accept_states (load_tape right_mover ""))
      by (apply (bool_decide_unpack _); vm_compute; exact I).
    assert (Hrule : transitions (load_tape right_mover "")
                      !! (current_state (load_tape right_mover ""), "_"%string)
                    = Some ("q0"%string, "_"%string, "R"%string)) by (vm_compute; reflexivity).
    destruct (Hlast "_"%string "q0"%string "_"%string Hacc eq_refl Hrule eq_refl)
      as [Hhead Htape].
    split; [|rewrite Htape]; vm_compute; reflexivity.
  - destruct (head_in_reach_after_steps right_mover "" 1) as (_ & _ & _ & _ & Hread).
    assert (Hacc : current_state (step_calls 1 (load_tape right_mover ""))
                   ∉ accept_states (step_calls 1 (load_tape right_mover "")))
      by (apply (bool_decide_unpack _); vm_compute; exact I).
    assert (Hend : head_position (step_calls 1 (load_tape right_mover ""))
                   = Z.of_nat (length (tape (step_calls 1 (load_tape right_mover "")))))
      by (vm_compute; reflexivity).
    destruct (Hread Hacc Hend) as (Hlen & _).
    rewrite Hlen. vm_compute. reflexivity.
Defined.

(** ** The loop of [run] *)

(** With more fuel than [max_steps - steps] the loop is left, after at
    most [max_steps - steps] further calls of [step]. *)
Lemma run_loop_total (max_steps : Z) (fuel : nat) :
  ∀ (steps calls : Z) (m : TuringMachine),
  (Z.to_nat (max_steps - steps) < fuel)%nat →
  ∃ e, run_loop fuel max_steps steps calls m = Some e ∧
       steps <= exit_steps e <= Z.max steps max_steps ∧
       exit_steps e - steps <= exit_calls e - calls <= Z.max 0 (max_steps - steps).
Proof.
  induction fuel as [|fuel IH]; intros steps calls m Hfuel; [lia|].
  simpl. destruct (Z.ltb_spec steps max_steps) as [Hlt|Hge].
  - destruct (step m) as [[[|]|x] m'].
    + destruct (IH (steps + 1) (calls + 1) m') as (e & -> & Hs & Hc); [lia|].
      exists e. split; [done|]. lia.
    + eexists. split; [done|]. simpl. lia.
    + eexists. split; [done|]. simpl. lia.
  - eexists. split; [done|]. simpl. lia.
Qed.

(** Once the loop is left, extra fuel changes nothing. *)
Lemma run_loop_fuel_mono (max_steps : Z) (fuel : nat) :
  ∀ (fuel' : nat) (steps calls : Z) (m : TuringMachine) (e : loop_exit),
  run_loop fuel max_steps steps calls m = Some e →
  (fuel <= fuel')%nat →
  run_loop fuel' max_steps steps calls m = Some e.
Proof.
  induction fuel as [|fuel IH]; intros fuel' steps calls m e Hrun Hle; [done|].
  destruct fuel' as [|fuel']; [lia|].
  simpl in *. destruct (steps <? max_steps); [|done].
  destruct (step m) as [[[|]|x] m']; [|done..].
  apply IH; [done|lia].
Qed.

Lemma step_head_nonneg (m : TuringMachine) :
  0 <= head_position m →
  0 <= head_position (step m).2 ∧ ∃ b, (step m).1 = Return b.
Proof.
  intros Hh.
  destruct (step_cases m Hh) as [[_ ->]|[_ (sym & _ & [[_ ->]|(rule & _ & ->)])]];
    cbn [fst snd].
  - split; [done|by exists false].
  - split; [done|by exists false].
  - split; [|by exists true]. by apply apply_rule_head_in_reach.
Qed.

(** From a configuration with a non-negative head the loop is never left
    by an exception, and the constructor arguments are untouched. *)
Lemma run_loop_returns (max_steps : Z) (fuel : nat) :
  ∀ (steps calls : Z) (m : TuringMachine) (e : loop_exit),
  0 <= head_position m →
  run_loop fuel max_steps steps calls m = Some e →
  exit_status e = Return tt ∧ 0 <= head_position (exit_machine e) ∧
  same_spec (exit_machine e) m.
Proof.
  induction fuel as [|fuel IH]; intros steps calls m e Hh Hrun; [done|].
  simpl in Hrun. destruct (steps <? max_steps).
  - destruct (step_head_nonneg m Hh) as [Hh' [b Hb]].
    pose proof (step_same_spec m) as Hspec.
    destruct (step m) as [r m']. cbn [fst snd] in *. subst r.
    destruct b.
    + destruct (IH _ _ _ _ Hh' Hrun) as (? & ? & Hs).
      do 2 (split; [done|]). same_spec_fields.
    + by simplify_eq.
  - by simplify_eq.
Qed.

(** ** [rstrip] *)

Lemma rstrip_append_blanks (s : string) :
  ∃ k, s = String.append (rstrip "_" s) (blanks k).
Proof.
  induction s as [|a rest [k IH]]; [by exists 0%nat|].
  simpl. destruct (rstrip "_" rest) as [|b kept] eqn:Hr.
  - destruct (Ascii.eqb_spec a "_") as [->|_].
    + exists (S k). by rewrite IH at 1.
    + exists k. by rewrite IH at 1.
  - exists k. by rewrite IH at 1.
Qed.

Lemma rstrip_no_trailing_blank (s : string) :
  ∀ s', rstrip "_" s ≠ String.append s' "_".
Proof.
  induction s as [|a rest IH]; intros s'; simpl.
  - by destruct s'.
  - destruct (rstrip "_" rest) as [|b kept] eqn:Hr.
    + destruct (Ascii.eqb_spec a "_") as [->|Ha]; [by destruct s'|].
      destruct s' as [|c [|d s']]; rewrite ?append_String; try done.
      intros [= ->]. done.
    + destruct s' as [|c s']; [done|].
      rewrite append_String. intros [= -> H]. by apply (IH s').
Qed.

Lemma rstrip_keeps_leading_blanks (k : nat) (c : ascii) :
  c ≠ "_"%char → ∀ s rest,
  s = String.append (blanks k) (String c rest) →
  ∃ rest', rstrip "_" s = String.append (blanks k) (String c rest').
Proof.
  intros Hc. induction k as [|k IH]; intros s rest ->.
  - change (String.append (blanks 0) (String c rest)) with (String c rest). simpl.
    destruct (rstrip "_" rest) as [|b kept].
    + destruct (Ascii.eqb_spec c "_"); [done|]. by exists EmptyString.
    + by exists (String b kept).
  - change (String.append (blanks (S k)) (String c rest))
      with (String "_" (String.append (blanks k) (String c rest))).
    destruct (IH _ rest eq_refl) as [rest' Hr'].
    exists rest'. cbn [rstrip]. rewrite Hr'.
    change (String.append (blanks (S k)) (String c rest'))
      with (String "_" (String.append (blanks k) (String c rest'))).
    by destruct k.
Qed.

(** On a string of blanks only, every blank is a trailing one. *)
Lemma rstrip_blanks (k : nat) : rstrip "_" (blanks k) = EmptyString.
Proof. induction k as [|k IH]; [done|]. simpl. by rewrite IH. Qed.

Lemma rstrip_stripped (s : string) : trailing_blanks_stripped s (rstrip "_" s).
Proof.
  split; [apply rstrip_append_blanks|].
  split; [apply rstrip_no_trailing_blank|].
  intros k c rest Hc. by apply rstrip_keeps_leading_blanks.
Qed.

(** ** Claims about [run] and [get_tape_content] *)

(** [run] from a configuration with a non-negative head returns the tape
    content of the machine as the loop left it. *)
Lemma run_returns (max_steps : Z) (m : TuringMachine) :
  0 <= head_position m →
  ∃ e, run max_steps m = Some (Return (get_tape_content (exit_machine e)), e) ∧
       0 <= exit_steps e <= Z.max 0 max_steps ∧
       same_spec (exit_machine e) m.
Proof.
  intros Hh. unfold run, run_fuel.
  destruct (run_loop_total max_steps (S (Z.to_nat max_steps)) 0 0 m)
    as (e & He & Hs & _); [lia|].
  destruct (run_loop_returns _ _ _ _ _ _ Hh He) as (Hst & _ & Hspec).
  exists e. rewrite He, Hst. done.
Qed.

(** C4. For a non-negative [n], [run(n)] terminates from every
    configuration (the loop is left with any fuel above [n], always with
    the same outcome) and invokes [step] at most [n] times. *)
Theorem run_step_bound (n : Z) (m : TuringMachine) :
  0 <= n →
  ∃ r e, run n m = Some (r, e) ∧
    0 <= exit_calls e <= n ∧
    0 <= exit_steps e <= exit_calls e ∧
    ∀ fuel : nat, (Z.to_nat n < fuel)%nat →
      run_loop fuel n 0 0 m = Some e ∧ run_fuel fuel n m = Some (r, e).
Proof.
  intros Hn.
  destruct (run_loop_total n (S (Z.to_nat n)) 0 0 m) as (e & He & Hs & Hc); [lia|].
  assert (Hall : ∀ fuel : nat, (Z.to_nat n < fuel)%nat → run_loop fuel n 0 0 m = Some e).
  { intros fuel Hfuel. apply run_loop_fuel_mono with (S (Z.to_nat n)); [done|lia]. }
  unfold run, run_fuel. rewrite He.
  destruct (exit_status e) as [u|x] eqn:Hst.
  - eexists _, e. split; [done|]. do 2 (split; [lia|]).
    intros fuel Hfuel. rewrite (Hall fuel Hfuel), Hst. done.
  - eexists _, e. split; [done|]. do 2 (split; [lia|]).
    intros fuel Hfuel. rewrite (Hall fuel Hfuel), Hst. done.
Qed.

Lemma run_step_bound_witness :
  0 <= 3 ∧
  ∃ r e, run 3 (load_tape right_mover "") = Some (r, e) ∧ 0 <= exit_calls e <= 3.
Proof.
  assert (H : 0 <= 3) by lia.
  split; [exact H|].
  destruct (run_step_bound 3 (load_tape right_mover "") H) as (r & e & Hr & Hc & _).
  exists r, e. split; [exact Hr|exact Hc].
Defined.

(** The budget is what stops a machine that never halts. *)
Example right_mover_exhausts_budget :
  ∃ e, run 1000 (load_tape right_mover "") = Some (Return EmptyString, e) ∧
       exit_steps e = 1000 ∧ exit_calls e = 1000 ∧
       head_position (exit_machine e) = 1000.
Proof. vm_compute. eexists. repeat split. Qed.

(** C3. Two machines built from the same specification, loaded with the
    same input and run with the same budget, return the same content,
    leave the same tape and perform the same number of transitions,
    whatever each machine held before [load_tape]. *)
Theorem run_deterministic (m1 m2 : TuringMachine) (s : string) (max_steps : Z) :
  same_spec m1 m2 →
  ∃ out e1 e2,
    run max_steps (load_tape m1 s) = Some (Return out, e1) ∧
    run max_steps (load_tape m2 s) = Some (Return out, e2) ∧
    tape (exit_machine e1) = tape (exit_machine e2) ∧
    exit_steps e1 = exit_steps e2.
Proof.
  intros Hspec. rewrite (load_tape_same_spec m1 m2 s Hspec).
  destruct (run_returns max_steps (load_tape m2 s)) as (e & He & _); [simpl; lia|].
  by exists (get_tape_content (exit_machine e)), e, e.
Qed.

(** Two objects with the specification of scenario C: a fresh one, and one
    that has already been used on another input. *)
Lemma run_deterministic_witness :
  same_spec scenario_C (step_calls 2 (load_tape scenario_C "AA")) ∧
  ∃ out e1 e2,
    run 10 (load_tape scenario_C "AAA") = Some (Return out, e1) ∧
    run 10 (load_tape (step_calls 2 (load_tape scenario_C "AA")) "AAA")
      = Some (Return out, e2) ∧
    tape (exit_machine e1) = tape (exit_machine e2) ∧
    exit_steps e1 = exit_steps e2.
Proof.
  assert (H : same_spec scenario_C (step_calls 2 (load_tape scenario_C "AA")))
    by (vm_compute; repeat split).
  split; [exact H|].
  exact (run_deterministic scenario_C (step_calls 2 (load_tape scenario_C "AA")) "AAA" 10 H).
Defined.

(** C7. [get_tape_content] is the joined tape without its trailing blanks
    and with its leading blanks; [run] returns that value for the machine
    as the loop left it, however the loop was left. *)
Theorem run_returns_content (max_steps : Z) (m : TuringMachine) :
  0 <= head_position m →
  trailing_blanks_stripped (join (tape m)) (get_tape_content m) ∧
  ∃ e, run max_steps m = Some (Return (get_tape_content (exit_machine e)), e) ∧
       trailing_blanks_stripped (join (tape (exit_machine e)))
                                (get_tape_content (exit_machine e)).
Proof.
  intros Hh. split; [apply rstrip_stripped|].
  destruct (run_returns max_steps m Hh) as (e & He & _).
  exists e. split; [done|apply rstrip_stripped].
Qed.

Lemma run_returns_content_witness :
  0 <= head_position (load_tape scenario_D "A") ∧
  ∃ e, run 2 (load_tape scenario_D "A")
       = Some (Return (get_tape_content (exit_machine e)), e).
Proof.
  assert (H : 0 <= head_position (load_tape scenario_D "A")) by (simpl; lia).
  split; [exact H|].
  destruct (run_returns_content 2 (load_tape scenario_D "A") H) as (_ & e & He & _).
  exists e. exact He.
Defined.

(** The three ways the loop is left: acceptance (scenario B), an undefined
    transition (scenario A: empty table), and the exhausted budget (two
    Left moves of scenario D, which leave blanks in front). *)
Example run_stops_three_ways :
  (∃ e, run 100000 (load_tape scenario_B "XYZ") = Some (Return "XYZ"%string, e) ∧
        exit_steps e = 0) ∧
  (∃ e, run 100000 (load_tape (init ∅ ∅ ∅ "q0" ∅ ∅) "AB") = Some (Return "AB"%string, e) ∧
        exit_steps e = 0) ∧
  (∃ e, run 2 (load_tape scenario_D "_A") = Some (Return "___A"%string, e) ∧
        exit_steps e = 2 ∧ tape (exit_machine e) = ["_"; "_"; "_"; "A"; "_"]%string).
Proof. vm_compute. repeat split; eexists; repeat split. Qed.

(** C9. Scenario C: with the single rule (q0, A) -> (q0, A, R), initial
    state q0 and no accept state, after [load_tape("AAA")] three calls of
    [step] return [True], the fourth returns [False] because (q0, _) has
    no rule, and the content is "AAA". *)
Theorem scenario_C_three_steps (Q Sigma Gamma : gset string) :
  let m0 := load_tape
    (init Q Sigma Gamma "q0" ∅
       {[ ("q0"%string, "A"%string) := ("q0"%string, "A"%string, "R"%string) ]}) "AAA" in
  (step m0).1 = Return true ∧
  (step (step_calls 1 m0)).1 = Return true ∧
  (step (step_calls 2 m0)).1 = Return true ∧
  (step (step_calls 3 m0)).1 = Return false ∧
  head_position (step_calls 3 m0) = 3 ∧
  tape (step_calls 3 m0) !! 3%nat = Some blank ∧
  transitions m0 !! ("q0"%string, "_"%string) = None ∧
  get_tape_content (step_calls 3 m0) = "AAA"%string ∧
  get_tape_content (step_calls 4 m0) = "AAA"%string ∧
  ∃ e, run 100000 m0 = Some (Return "AAA"%string, e) ∧
       exit_steps e = 3 ∧ exit_calls e = 4.
Proof. vm_compute. repeat split. eexists. repeat split. Qed.

(** ** The Caesar cipher *)

Lemma str_index_getitem (c : ascii) (s : string) : ∀ pos : Z,
  str_index c s = Some pos →
  0 <= pos < Z.of_nat (String.length s) ∧ str_getitem s pos = Some c.
Proof.
  unfold str_getitem.
  induction s as [|a rest IH]; intros pos Hpos; [done|].
  simpl in Hpos. destruct (Ascii.eqb_spec a c) as [->|Hne].
  - injection Hpos as <-. simpl. split; [lia|done].
  - destruct (str_index c rest) as [i|]; [|done].
    injection Hpos as <-. destruct (IH i eq_refl) as [Hi Hget].
    destruct (Z.leb_spec 0 i); [|lia].
    destruct (Z.leb_spec 0 (i + 1)); [|lia].
    split; [simpl String.length; lia|].
    replace (Z.to_nat (i + 1)) with (S (Z.to_nat i)) by lia. done.
Qed.

Lemma str_contains_index (c : ascii) (s : string) :
  str_contains c s = true → ∃ pos, str_index c s = Some pos.
Proof.
  induction s as [|a rest IH]; [done|]. simpl.
  destruct (Ascii.eqb a c); [by exists 0|].
  intros [i ->]%IH. by exists (i + 1).
Qed.

(** The 26 letters are pairwise different and none is the space: reading
    position [i] and searching the letter found gives [i] back. *)
Lemma alphabet_getitem_index (i : Z) :
  0 <= i < 26 →
  ∃ c, str_getitem alphabet i = Some c ∧
       Ascii.eqb c " " = false ∧
       str_contains c alphabet = true ∧
       str_index c alphabet = Some i.
Proof.
  intros Hi. rewrite <- (Z2Nat.id i) by lia.
  assert (Hn : (Z.to_nat i < 26)%nat) by lia.
  remember (Z.to_nat i) as n eqn:Heqn. clear Heqn Hi i.
  do 26 (destruct n as [|n]; [vm_compute; eauto|]). lia.
Qed.

Lemma shift_back (pos shift : Z) :
  0 <= pos < 26 → ((pos + shift) mod 26 - shift) mod 26 = pos.
Proof.
  intros H. rewrite Zminus_mod_idemp_l.
  replace (pos + shift - shift) with pos by lia. by apply Z.mod_small.
Qed.

Lemma decrypt_encrypt_char (char : ascii) (shift : Z) :
  ∃ c, encrypt_char char shift = Some c ∧ decrypt_char c shift = Some char.
Proof.
  unfold encrypt_char.
  destruct (Ascii.eqb_spec char " ") as [->|Hsp]; [by exists " "%char|].
  destruct (str_contains char alphabet) eqn:Hin.
  - destruct (str_contains_index _ _ Hin) as [pos Hpos]. rewrite Hpos.
    destruct (str_index_getitem _ _ _ Hpos) as [Hrange Hget].
    change (Z.of_nat (String.length alphabet)) with 26 in Hrange.
    destruct (alphabet_getitem_index ((pos + shift) mod 26))
      as (c & Hc & Hcsp & Hcin & Hcidx); [by apply Z.mod_pos_bound|].
    exists c. split; [done|].
    unfold decrypt_char. rewrite Hcsp, Hcin, Hcidx. cbn zeta.
    by rewrite shift_back.
  - exists char. split; [done|].
    unfold decrypt_char. rewrite Hin.
    by destruct (Ascii.eqb_spec char " ").
Qed.

(** C10. For every message and every integer shift, [caesar_encrypt]
    returns a string that [caesar_decrypt] with the same shift turns back
    into the message. *)
Theorem caesar_decrypt_encrypt (message : string) (shift : Z) :
  ∃ encrypted,
    caesar_encrypt message shift = Some encrypted ∧
    caesar_decrypt encrypted shift = Some message.
Proof.
  induction message as [|char rest (encrypted & Henc & Hdec)]; [by exists EmptyString|].
  destruct (decrypt_encrypt_char char shift) as (c & Hc & Hback).
  exists (String c encrypted). simpl. by rewrite Hc, Henc, Hback, Hdec.
Qed.

(** The first sample case of the repository, key 3. *)
Example caesar_roma :
  caesar_encrypt "ROMA NO FUE CONSTRUIDA EN UN DIA" 3
    = Some "URPD QR IXH FRQVWUXLGD HQ XQ GLD"%string ∧
  caesar_decrypt "URPD QR IXH FRQVWUXLGD HQ XQ GLD" 3
    = Some "ROMA NO FUE CONSTRUIDA EN UN DIA"%string ∧
  caesar_encrypt "Hola, mundo 1" (-29) = Some "Eola, mundo 1"%string.
Proof. vm_compute. done. Qed.

(** * Further properties of the engine *)

Lemma set_tape_id (m : TuringMachine) : set_tape m (tape m) = m.
Proof. by destruct m. Qed.

Lemma padded_tape_set_tape (m : TuringMachine) :
  padded_tape (set_tape m (padded_tape m)) = padded_tape m.
Proof.
  apply padded_tape_id. cbn [set_tape tape head_position].
  pose proof (length_padded_tape m). lia.
Qed.

(** A machine on which [step] returned [False] stays as that call left
    it: the next call returns [False] again and changes nothing. *)
Lemma step_false_again (m : TuringMachine) :
  0 <= head_position m →
  (step m).1 = Return false →
  step (step m).2 = (Return false, (step m).2).
Proof.
  intros Hh Hfalse.
  destruct (step_cases m Hh) as [[Hacc Hst]|[Hacc (sym & Hsym & [[Hnone Hst]|(rule & _ & Hst)])]];
    rewrite Hst in *; cbn [fst snd] in *; [done| |done].
  rewrite (step_no_rule (set_tape m (padded_tape m)) sym); try done.
  - by rewrite padded_tape_set_tape, <- (padded_tape_set_tape m) at 1.
  - by rewrite padded_tape_set_tape.
Qed.

(** X1. Halting is stable: after a call of [step] that returned [False],
    every further call returns [False] and leaves tape, head and state
    untouched. *)
Theorem halted_machine_stays_halted (m : TuringMachine) (n : nat) :
  0 <= head_position m →
  (step m).1 = Return false →
  step_calls n (step m).2 = (step m).2 ∧
  step (step_calls n (step m).2) = (Return false, (step m).2).
Proof.
  intros Hh Hfalse. pose proof (step_false_again m Hh Hfalse) as Hagain.
  assert (Hn : step_calls n (step m).2 = (step m).2).
  { induction n as [|n IH]; [done|]. simpl. by rewrite Hagain. }
  by rewrite Hn.
Qed.

Lemma halted_machine_stays_halted_witness :
  0 <= head_position (load_tape scenario_C "") ∧
  (step (load_tape scenario_C "")).1 = Return false ∧
  step_calls 5 (step (load_tape scenario_C "")).2 = (step (load_tape scenario_C "")).2.
Proof.
  assert (H1 : 0 <= head_position (load_tape scenario_C "")) by (simpl; lia).
  assert (H2 : (step (load_tape scenario_C "")).1 = Return false)
    by (vm_compute; reflexivity).
  split; [exact H1|]. split; [exact H2|].
  exact (proj1 (halted_machine_stays_halted (load_tape scenario_C "") 5 H1 H2)).
Defined.

(** The loop of [run] as iterated [step]: the machine it leaves is the
    one after as many [step] calls as the loop made, the calls counted by
    [steps] returned [True], and the constructor arguments are those of
    the start. *)
Lemma run_loop_step_calls (max_steps : Z) (fuel : nat) :
  ∀ (steps calls : Z) (m : TuringMachine) (e : loop_exit),
  run_loop fuel max_steps steps calls m = Some e →
  calls <= exit_calls e ∧
  exit_machine e = step_calls (Z.to_nat (exit_calls e - calls)) m ∧
  (∀ i : nat, Z.of_nat i < exit_steps e - steps →
     (step (step_calls i m)).1 = Return true).
Proof.
  induction fuel as [|fuel IH]; intros steps calls m e Hrun; [done|].
  simpl in Hrun. destruct (steps <? max_steps).
  - destruct (step m) as [[[|]|x] m'] eqn:Hst.
    + destruct (IH _ _ _ _ Hrun) as (Hc & Hm & Htrue).
      split; [lia|]. split.
      * replace (Z.to_nat (exit_calls e - calls))
          with (S (Z.to_nat (exit_calls e - (calls + 1)))) by lia.
        simpl. by rewrite Hst.
      * intros [|i] Hi; simpl; rewrite Hst; [done|]. apply Htrue. lia.
    + simplify_eq. cbn. split; [lia|]. split; [|intros i Hi; lia].
      replace (Z.to_nat (calls + 1 - calls)) with 1%nat by lia.
      simpl. by rewrite Hst.
    + simplify_eq. cbn. split; [lia|]. split; [|intros i Hi; lia].
      replace (Z.to_nat (calls + 1 - calls)) with 1%nat by lia.
      simpl. by rewrite Hst.
  - simplify_eq. cbn. split; [lia|]. split; [|intros i Hi; lia].
    by replace (Z.to_nat (calls - calls)) with 0%nat by lia.
Qed.

(** X2. [run] is [step] iterated: for every budget and machine, the
    machine [run] leaves is the one reached by exactly as many [step]
    calls as the loop made, and each of the first [steps] calls returned
    [True]. *)
Theorem run_is_iterated_step (max_steps : Z) (m : TuringMachine) :
  ∃ r e, run max_steps m = Some (r, e) ∧
    0 <= exit_calls e ∧
    exit_machine e = step_calls (Z.to_nat (exit_calls e)) m ∧
    (∀ i : nat, Z.of_nat i < exit_steps e →
       (step (step_calls i m)).1 = Return true).
Proof.
  destruct (run_loop_total max_steps (S (Z.to_nat max_steps)) 0 0 m)
    as (e & He & _); [lia|].
  destruct (run_loop_step_calls _ _ _ _ _ _ He) as (Hc & Hm & Htrue).
  rewrite Z.sub_0_r in Hm.
  assert (Hr : ∃ r, run max_steps m = Some (r, e)).
  { unfold run, run_fuel. rewrite He. destruct (exit_status e); eauto. }
  destruct Hr as [r Hr]. exists r, e. repeat split; [done..|].
  intros i Hi. apply Htrue. lia.
Qed.

(** X3. Neither [step] nor [run] ever changes what the constructor
    received: state set, alphabets, initial state, accept states and
    transition table are the same after any call, also one that raises. *)
Theorem specification_is_immutable (max_steps : Z) (m : TuringMachine) (n : nat) :
  same_spec (step m).2 m ∧
  same_spec (step_calls n m) m ∧
  ∃ r e, run max_steps m = Some (r, e) ∧ same_spec (exit_machine e) m.
Proof.
  split; [apply step_same_spec|]. split; [apply step_calls_same_spec|].
  destruct (run_loop_total max_steps (S (Z.to_nat max_steps)) 0 0 m)
    as (e & He & _); [lia|].
  destruct (run_loop_step_calls _ _ _ _ _ _ He) as (_ & Hm & _).
  assert (Hr : ∃ r, run max_steps m = Some (r, e)).
  { unfold run, run_fuel. rewrite He. destruct (exit_status e); eauto. }
  destruct Hr as [r Hr]. exists r, e. split; [done|].
  rewrite Hm. apply step_calls_same_spec.
Qed.

(** When the loop is left before the budget is used up, the machine has
    halted. *)
Lemma run_loop_exhausted_or_halted (max_steps : Z) (fuel : nat) :
  ∀ (steps calls : Z) (m : TuringMachine) (e : loop_exit),
  0 <= head_position m →
  steps <= max_steps →
  run_loop fuel max_steps steps calls m = Some e →
  exit_steps e = max_steps ∨
  (exit_steps e < max_steps ∧
   step (exit_machine e) = (Return false, exit_machine e)).
Proof.
  induction fuel as [|fuel IH]; intros steps calls m e Hh Hle Hrun; [done|].
  simpl in Hrun. destruct (Z.ltb_spec steps max_steps).
  - destruct (step_head_nonneg m Hh) as [Hh' [b Hb]].
    pose proof (step_false_again m Hh) as Hagain.
    destruct (step m) as [r m']. cbn [fst snd] in *. subst r.
    destruct b.
    + apply (IH (steps + 1) (calls + 1) m' e Hh'); [lia|done].
    + simplify_eq. cbn. right. split; [done|]. by apply Hagain.
  - simplify_eq. cbn. left. lia.
Qed.

(** X4. Comparing the step counter with the budget tells why [run]
    stopped: from a configuration with a non-negative head and for a
    non-negative budget, either the counter equals the budget, or it is
    below it and the machine has halted ([step] on it returns [False] and
    changes nothing). *)
Theorem run_exhausted_or_halted (max_steps : Z) (m : TuringMachine) :
  0 <= head_position m →
  0 <= max_steps →
  ∃ e, run max_steps m = Some (Return (get_tape_content (exit_machine e)), e) ∧
    (exit_steps e = max_steps ∨
     (exit_steps e < max_steps ∧
      step (exit_machine e) = (Return false, exit_machine e))).
Proof.
  intros Hh Hn.
  destruct (run_returns max_steps m Hh) as (e & He & _).
  exists e. split; [done|].
  unfold run, run_fuel in He.
  destruct (run_loop _ _ _ _ _) as [e'|] eqn:Hloop; [|done].
  assert (e' = e) as -> by (destruct (exit_status e'); congruence).
  by apply (run_loop_exhausted_or_halted _ _ _ _ _ _ Hh Hn Hloop).
Qed.

Lemma run_exhausted_or_halted_witness :
  0 <= head_position (load_tape scenario_C "AAA") ∧ 0 <= 10 ∧
  ∃ e, run 10 (load_tape scenario_C "AAA")
       = Some (Return (get_tape_content (exit_machine e)), e) ∧
    (exit_steps e = 10 ∨
     (exit_steps e < 10 ∧ step (exit_machine e) = (Return false, exit_machine e))).
Proof.
  assert (H1 : 0 <= head_position (load_tape scenario_C "AAA")) by (simpl; lia).
  assert (H2 : 0 <= 10) by lia.
  split; [exact H1|]. split; [exact H2|].
  exact (run_exhausted_or_halted 10 (load_tape scenario_C "AAA") H1 H2).
Defined.

(** The loop only looks at the distance between [steps] and [max_steps]. *)
Lemma run_loop_shift (max_steps delta : Z) (fuel : nat) :
  ∀ (steps calls calls' : Z) (m : TuringMachine) (e : loop_exit),
  run_loop fuel max_steps steps calls m = Some e →
  run_loop fuel (max_steps + delta) (steps + delta) calls' m
  = Some (LoopExit (exit_status e) (exit_steps e + delta)
                   (exit_calls e - calls + calls') (exit_machine e)).
Proof.
  induction fuel as [|fuel IH]; intros steps calls calls' m e Hrun; [done|].
  simpl in *.
  replace (steps + delta <? max_steps + delta) with (steps <? max_steps)
    by (destruct (Z.ltb_spec steps max_steps),
                 (Z.ltb_spec (steps + delta) (max_steps + delta)); lia).
  destruct (steps <? max_steps).
  - destruct (step m) as [[[|]|x] m'].
    + replace (steps + delta + 1) with (steps + 1 + delta) by lia.
      rewrite (IH _ _ (calls' + 1) _ _ Hrun). do 2 f_equal. lia.
    + simplify_eq. cbn. do 2 f_equal. lia.
    + simplify_eq. cbn. do 2 f_equal. lia.
  - simplify_eq. cbn. do 2 f_equal. lia.
Qed.

Lemma run_loop_S (fuel : nat) (max_steps steps calls : Z) (m : TuringMachine) :
  run_loop (S fuel) max_steps steps calls m
  = if steps <? max_steps then
      match step m with
      | (Raise e, m') => Some (LoopExit (Raise e) steps (calls + 1) m')
      | (Return true, m') => run_loop fuel max_steps (steps + 1) (calls + 1) m'
      | (Return false, m') => Some (LoopExit (Return tt) steps (calls + 1) m')
      end
    else Some (LoopExit (Return tt) steps calls m).
Proof. reflexivity. Qed.

Lemma run_loop_split (a b : Z) (fuel : nat) :
  ∀ (steps calls : Z) (m : TuringMachine) (e1 : loop_exit),
  0 <= head_position m → 0 <= b → steps <= a →
  run_loop fuel a steps calls m = Some e1 →
  ∃ e2 e,
    run_loop (S (Z.to_nat b)) b 0 0 (exit_machine e1) = Some e2 ∧
    run_loop (fuel + S (Z.to_nat b)) (a + b) steps calls m = Some e ∧
    exit_machine e = exit_machine e2 ∧
    exit_steps e = exit_steps e1 + exit_steps e2.
Proof.
  induction fuel as [|fuel IH]; intros steps calls m e1 Hh Hb Hle Hrun; [done|].
  rewrite run_loop_S in Hrun.
  destruct (Z.ltb_spec steps a) as [Hlt|Hge].
  - change (S fuel + S (Z.to_nat b))%nat with (S (fuel + S (Z.to_nat b))).
    rewrite (run_loop_S (fuel + S (Z.to_nat b))).
    destruct (Z.ltb_spec steps (a + b)); [|lia].
    destruct (step_head_nonneg m Hh) as [Hh' [r Hr]].
    pose proof (step_false_again m Hh) as Hagain.
    destruct (step m) as [r' m']. cbn [fst snd] in *. subst r'.
    destruct r.
    + apply (IH (steps + 1) (calls + 1) m' e1 Hh' Hb); [lia|done].
    + simplify_eq. cbn [exit_machine exit_steps].
      rewrite run_loop_S.
      destruct (Z.ltb_spec 0 b).
      * rewrite (Hagain eq_refl). eexists _, _. repeat split. cbn. lia.
      * eexists _, _. repeat split. cbn. lia.
  - simplify_eq. cbn [exit_machine exit_steps].
    assert (steps = a) as -> by lia.
    destruct (run_loop_total b (S (Z.to_nat b)) 0 0 m) as (e2 & He2 & _); [lia|].
    exists e2. eexists. split; [done|].
    pose proof (run_loop_shift b a _ 0 0 calls m e2 He2) as Hshift.
    rewrite (Z.add_comm b a), Z.add_0_l in Hshift.
    split.
    + eapply run_loop_fuel_mono; [exact Hshift|lia].
    + cbn. split; [done|lia].
Qed.

Lemma run_loop_of_run (max_steps : Z) (m : TuringMachine)
    (r : result string) (e : loop_exit) :
  run max_steps m = Some (r, e) →
  run_loop (S (Z.to_nat max_steps)) max_steps 0 0 m = Some e.
Proof.
  unfold run, run_fuel.
  destruct (run_loop (S (Z.to_nat max_steps)) max_steps 0 0 m) as [e'|]; [|done].
  destruct (exit_status e'); congruence.
Qed.

(** X5. A budget can be spent in instalments: from a configuration with a
    non-negative head, [run(a)] followed by [run(b)] returns the same
    content and leaves the same machine as a single [run(a + b)], and the
    step counters add up. *)
Theorem run_in_instalments (a b : Z) (m : TuringMachine) :
  0 <= head_position m → 0 <= a → 0 <= b →
  ∃ e1 e2 e,
    run a m = Some (Return (get_tape_content (exit_machine e1)), e1) ∧
    run b (exit_machine e1) = Some (Return (get_tape_content (exit_machine e2)), e2) ∧
    run (a + b) m = Some (Return (get_tape_content (exit_machine e2)), e) ∧
    exit_machine e = exit_machine e2 ∧
    exit_steps e = exit_steps e1 + exit_steps e2.
Proof.
  intros Hh Ha Hb.
  destruct (run_returns a m Hh) as (e1 & He1 & _ & _).
  assert (Hloop1 : run_loop (S (Z.to_nat a)) a 0 0 m = Some e1)
    by exact (run_loop_of_run _ _ _ _ He1).
  destruct (run_loop_returns _ _ _ _ _ _ Hh Hloop1) as (_ & Hh1 & _).
  destruct (run_returns b (exit_machine e1) Hh1) as (e2 & He2 & _ & _).
  assert (Hloop2 : run_loop (S (Z.to_nat b)) b 0 0 (exit_machine e1) = Some e2)
    by exact (run_loop_of_run _ _ _ _ He2).
  destruct (run_returns (a + b) m Hh) as (e & He & _ & _).
  assert (Hloop : run_loop (S (Z.to_nat (a + b))) (a + b) 0 0 m = Some e)
    by exact (run_loop_of_run _ _ _ _ He).
  destruct (run_loop_split a b _ 0 0 m e1 Hh Hb Ha Hloop1)
    as (e2' & e' & Hloop2' & Hloop' & Hm & Hs).
  assert (e2' = e2) as -> by congruence.
  assert (e' = e) as ->.
  { apply (run_loop_fuel_mono _ _ (S (Z.to_nat a) + S (Z.to_nat b))%nat) in Hloop; [|lia].
    congruence. }
  exists e1, e2, e. rewrite He1, He2, He, Hm. done.
Qed.

Lemma run_in_instalments_witness :
  0 <= head_position (load_tape scenario_C "AAA") ∧ 0 <= 2 ∧ 0 <= 5 ∧
  ∃ e1 e2 e,
    run 2 (load_tape scenario_C "AAA")
      = Some (Return (get_tape_content (exit_machine e1)), e1) ∧
    run 5 (exit_machine e1) = Some (Return (get_tape_content (exit_machine e2)), e2) ∧
    run (2 + 5) (load_tape scenario_C "AAA")
      = Some (Return (get_tape_content (exit_machine e2)), e) ∧
    exit_machine e = exit_machine e2 ∧
    exit_steps e = exit_steps e1 + exit_steps e2.
Proof.
  assert (H1 : 0 <= head_position (load_tape scenario_C "AAA")) by (simpl; lia).
  assert (H2 : 0 <= 2) by lia.
  assert (H3 : 0 <= 5) by lia.
  split; [exact H1|]. split; [exact H2|]. split; [exact H3|].
  exact (run_in_instalments 2 5 (load_tape scenario_C "AAA") H1 H2 H3).
Defined.

(** X6. Space is bounded by time: [n] calls of [step] after
    [load_tape(s)] leave a tape of at least [len(s) + 1] and at most
    [len(s) + 1 + n] cells (no cell is ever removed, at most one is added
    per call), with the head at an index between 0 and [n]. *)
Theorem tape_grows_at_most_one_per_step (m : TuringMachine) (s : string) (n : nat) :
  (S (String.length s) ≤ length (tape (step_calls n (load_tape m s)))
   ≤ S (String.length s) + n)%nat ∧
  0 <= head_position (step_calls n (load_tape m s)) <= Z.of_nat n.
Proof.
  destruct (step_calls_growth n (load_tape m s)) as [Hlen Hhead].
  - apply load_tape_head_in_reach.
  - cbn. by destruct (py_list s).
  - pose proof (step_calls_head_in_reach n _ (load_tape_head_in_reach m s)) as [Hh _].
    assert (Hl : length (tape (load_tape m s)) = S (String.length s)).
    { cbn. rewrite length_app, length_py_list. simpl. lia. }
    rewrite Hl in Hlen. cbn [load_tape set_current_state set_head_position head_position] in Hhead.
    lia.
Qed.

(** ** Loading and reading back *)

Lemma rstrip_append_blank (s : string) :
  rstrip "_" (String.append s "_") = rstrip "_" s.
Proof.
  induction s as [|a rest IH]; [done|].
  rewrite append_String. cbn [rstrip]. by rewrite IH.
Qed.

Lemma append_empty_r (s : string) : String.append s EmptyString = s.
Proof. induction s as [|a rest IH]; [done|]. by rewrite append_String, IH. Qed.

Lemma blanks_S_end (k : nat) : blanks (S k) = String.append (blanks k) "_".
Proof.
  induction k as [|k IH]; [done|].
  cbn [blanks]. rewrite append_String. f_equal. exact IH.
Qed.

Lemma rstrip_id (s : string) :
  (∀ s', s ≠ String.append s' "_") → rstrip "_" s = s.
Proof.
  intros Hend. destruct (rstrip_append_blanks s) as [[|k] Hk].
  - simpl in Hk. by rewrite append_empty_r in Hk.
  - rewrite blanks_S_end, append_assoc in Hk. by destruct (Hend _ Hk).
Qed.

(** X7. Reading back what was loaded: [get_tape_content] right after
    [load_tape(s)] gives [s] without its trailing underscores (the blank
    sentinel and underscores ending the input cannot be told apart), and
    so gives [s] itself exactly when [s] does not end in an underscore. *)
Theorem load_then_content (m : TuringMachine) (s : string) :
  get_tape_content (load_tape m s) = rstrip "_" s ∧
  (get_tape_content (load_tape m s) = s ↔ ∀ s', s ≠ String.append s' "_").
Proof.
  assert (H : get_tape_content (load_tape m s) = rstrip "_" s).
  { unfold get_tape_content, load_tape. cbn [set_current_state set_head_position set_tape tape].
    by rewrite join_app, join_py_list, (append_empty_r "_" : join [blank] = "_"%string),
      rstrip_append_blank. }
  split; [done|]. rewrite H. split.
  - intros Hid s' Hs'. apply (rstrip_no_trailing_blank s s'). congruence.
  - apply rstrip_id.
Qed.

Lemma get_tape_content_load_tape (m : TuringMachine) (s : string) :
  get_tape_content (load_tape m s) = rstrip "_" s.
Proof.
  unfold get_tape_content, load_tape. cbn [set_current_state set_head_position set_tape tape].
  by rewrite join_app, join_py_list, (append_empty_r "_" : join [blank] = "_"%string),
    rstrip_append_blank.
Qed.

(** ** Machines that stop at once, and a machine that scans its input *)

(** X8. If the initial state is an accept state, or the table has no rule
    for the initial state and the first tape symbol, then [run] after
    [load_tape(s)] performs no transition whatever the budget: it calls
    [step] at most once, leaves the machine as loaded and returns [s]
    without its trailing underscores. *)
Theorem run_stops_at_once (m : TuringMachine) (s sym : string) (max_steps : Z) :
  tape (load_tape m s) !! 0%nat = Some sym →
  initial_state m ∈ accept_states m ∨
    transitions m !! (initial_state m, sym) = None →
  ∃ e, run max_steps (load_tape m s) = Some (Return (rstrip "_" s), e) ∧
       exit_steps e = 0 ∧
       exit_calls e = (if 0 <? max_steps then 1 else 0) ∧
       exit_machine e = load_tape m s.
Proof.
  intros Hsym Hstop.
  assert (Hpad : padded_tape (load_tape m s) = tape (load_tape m s)).
  { apply padded_tape_id. cbn. rewrite length_app. simpl. lia. }
  assert (Hstep : step (load_tape m s) = (Return false, load_tape m s)).
  { destruct (decide (initial_state m ∈ accept_states m)) as [Hacc|Hacc];
      [by apply step_accept|].
    destruct Hstop as [?|Hnone]; [done|].
    rewrite (step_no_rule (load_tape m s) sym); [|simpl; lia|done|by rewrite Hpad|done].
    by rewrite Hpad, set_tape_id. }
  unfold run, run_fuel. rewrite run_loop_S.
  destruct (0 <? max_steps).
  - rewrite Hstep. cbn [exit_status exit_machine].
    eexists. split; [by rewrite <- (get_tape_content_load_tape m s)|done].
  - cbn [exit_status exit_machine].
    eexists. split; [by rewrite <- (get_tape_content_load_tape m s)|done].
Qed.

Lemma run_stops_at_once_witness :
  tape (load_tape (init ∅ ∅ ∅ "q0" ∅ ∅) "AB") !! 0%nat = Some "A"%string ∧
  ∃ e, run 100000 (load_tape (init ∅ ∅ ∅ "q0" ∅ ∅) "AB") = Some (Return "AB"%string, e) ∧
       exit_steps e = 0.
Proof.
  assert (H1 : tape (load_tape (init ∅ ∅ ∅ "q0" ∅ ∅) "AB") !! 0%nat = Some "A"%string)
    by reflexivity.
  assert (H2 : initial_state (init ∅ ∅ ∅ "q0" ∅ ∅) ∈ accept_states (init ∅ ∅ ∅ "q0" ∅ ∅) ∨
               transitions (init ∅ ∅ ∅ "q0" ∅ ∅)
                 !! (initial_state (init ∅ ∅ ∅ "q0" ∅ ∅), "A"%string) = None)
    by (right; reflexivity).
  split; [exact H1|].
  destruct (run_stops_at_once _ "AB" _ 100000 H1 H2) as (e & He & Hs & _).
  exists e. split; [exact He|exact Hs].
Defined.

Lemma py_list_lookup (s : string) : ∀ i : nat,
  py_list s !! i = (λ c, String c EmptyString) <$> String.get i s.
Proof.
  induction s as [|a rest IH]; intros [|i]; try done. simpl. apply IH.
Qed.

Lemma get_is_Some (s : string) : ∀ i : nat,
  (i < String.length s)%nat → ∃ c, String.get i s = Some c.
Proof.
  induction s as [|a rest IH]; intros i Hi; simpl in Hi; [lia|].
  destruct i as [|i]; [by exists a|]. apply IH. lia.
Qed.

Lemma get_append_end (s : string) (c : ascii) :
  String.get (String.length s) (String.append s (String c EmptyString)) = Some c.
Proof. induction s as [|a rest IH]; [done|]. rewrite append_String. simpl. exact IH. Qed.

Section Scan.
(** A machine whose initial state [q] is not accepting, has the rule
    (q, c) -> (q, c, R) for every character [c] of the input, and has
    no rule for (q, _). *)
Variables (m : TuringMachine) (s : string).
Hypothesis q_not_accepting : initial_state m ∉ accept_states m.
Hypothesis q_moves_right : ∀ (i : nat) (c : ascii),
  String.get i s = Some c →
  transitions m !! (initial_state m, String c EmptyString)
  = Some (initial_state m, String c EmptyString, "R"%string).
Hypothesis q_stops_on_blank :
  transitions m !! (initial_state m, "_"%string) = None.

Lemma scanning_padded (i : nat) :
  (i ≤ String.length s)%nat → padded_tape (scanning m s i) = tape (scanning m s i).
Proof.
  intros Hi. apply padded_tape_id. cbn.
  rewrite length_app, length_py_list. simpl. lia.
Qed.

Lemma scanning_step (i : nat) :
  (i < String.length s)%nat → step (scanning m s i) = (Return true, scanning m s (S i)).
Proof.
  intros Hi. destruct (get_is_Some s i Hi) as [c Hc].
  assert (Hcell : tape (scanning m s i) !! i = Some (String c EmptyString)).
  { cbn. rewrite lookup_app_l by (rewrite length_py_list; lia).
    by rewrite py_list_lookup, Hc. }
  rewrite (step_rule (scanning m s i) (String c EmptyString)
             (initial_state m, String c EmptyString, "R"%string)).
  - f_equal. unfold apply_rule.
    rewrite scanning_padded by lia. cbn [head_position scanning set_head_position].
    rewrite Nat2Z.id, (list_insert_id _ _ _ Hcell).
    cbn. unfold scanning, load_tape, set_current_state, set_head_position, set_tape.
    cbn. f_equal. lia.
  - cbn. lia.
  - exact q_not_accepting.
  - rewrite scanning_padded by lia. cbn [head_position scanning set_head_position].
    by rewrite Nat2Z.id.
  - by apply (q_moves_right i).
Qed.

Lemma scanning_stop :
  step (scanning m s (String.length s)) = (Return false, scanning m s (String.length s)).
Proof.
  rewrite (step_no_rule (scanning m s (String.length s)) "_"%string).
  - by rewrite scanning_padded, set_tape_id.
  - cbn. lia.
  - exact q_not_accepting.
  - rewrite scanning_padded by lia. cbn [head_position scanning set_head_position].
    rewrite Nat2Z.id. cbn.
    rewrite lookup_app_r by (rewrite length_py_list; lia).
    by rewrite length_py_list, Nat.sub_diag.
  - exact q_stops_on_blank.
Qed.

Lemma scanning_loop (max_steps : Z) (fuel : nat) : ∀ (i : nat) (calls : Z),
  (i ≤ String.length s)%nat →
  (Z.to_nat (max_steps - Z.of_nat i) < fuel)%nat →
  ∃ e, run_loop fuel max_steps (Z.of_nat i) calls (scanning m s i) = Some e ∧
       exit_status e = Return tt ∧
       exit_steps e = Z.max (Z.of_nat i) (Z.min max_steps (Z.of_nat (String.length s))) ∧
       exit_machine e = set_head_position (load_tape m s) (exit_steps e).
Proof.
  induction fuel as [|fuel IH]; intros i calls Hi Hfuel; [lia|].
  rewrite run_loop_S. destruct (Z.ltb_spec (Z.of_nat i) max_steps) as [Hlt|Hge].
  - destruct (decide (i = String.length s)) as [->|Hne].
    + rewrite scanning_stop. eexists. split; [done|]. split; [done|].
      cbn. split; [lia|]. unfold scanning. f_equal; lia.
    + rewrite scanning_step by lia.
      destruct (IH (S i) (calls + 1)) as (e & He & Hst & Hs & Hm); [lia..|].
      replace (Z.of_nat i + 1) with (Z.of_nat (S i)) by lia.
      exists e. rewrite He. split; [done|]. split; [done|]. split; [lia|done].
  - eexists. split; [done|]. split; [done|].
    cbn. split; [lia|]. unfold scanning. f_equal; lia.
Qed.

Lemma scanned_input_has_no_blank_end : ∀ s', s ≠ String.append s' "_".
Proof.
  intros s' ->.
  pose proof (q_moves_right _ _ (get_append_end s' "_")) as Hrule.
  rewrite q_stops_on_blank in Hrule. discriminate Hrule.
Qed.

(** X9. A one-state scanner: the machine moves right over the whole
    input without changing it and halts on the blank after it.  For a
    budget [n >= 0], [run(n)] after [load_tape(s)] returns [s],
    performs [min(n, len(s))] transitions and leaves the head at that
    index. *)
Theorem scanner_returns_input (max_steps : Z) :
  0 <= max_steps →
  ∃ e, run max_steps (load_tape m s) = Some (Return s, e) ∧
       exit_steps e = Z.min max_steps (Z.of_nat (String.length s)) ∧
       exit_machine e = set_head_position (load_tape m s) (exit_steps e).
Proof.
  intros Hn.
  destruct (scanning_loop max_steps (S (Z.to_nat max_steps)) 0 0)
    as (e & He & Hst & Hs & Hm); [lia..|].
  assert (Hstart : scanning m s 0 = load_tape m s) by done.
  rewrite Hstart in He. change (Z.of_nat 0) with 0 in *.
  exists e. unfold run, run_fuel. rewrite He, Hst, Hm.
  cbn [set_head_position tape].
  change (tape (load_tape m s)) with (py_list s ++ [blank]).
  rewrite join_app, join_py_list, (append_empty_r "_" : join [blank] = "_"%string),
    rstrip_append_blank, (rstrip_id s scanned_input_has_no_blank_end).
  split; [done|]. split; [lia|done].
Qed.
End Scan.

Lemma scanner_returns_input_witness :
  (initial_state scenario_C ∉ accept_states scenario_C) ∧ 0 <= 2 ∧
  ∃ e, run 2 (load_tape scenario_C "AAA") = Some (Return "AAA"%string, e) ∧
       exit_steps e = Z.min 2 (Z.of_nat (String.length "AAA")).
Proof.
  assert (H1 : initial_state scenario_C ∉ accept_states scenario_C)
    by (apply (bool_decide_unpack _); vm_compute; exact I).
  assert (H2 : ∀ (i : nat) (c : ascii), String.get i "AAA" = Some c →
            transitions scenario_C !! (initial_state scenario_C, String c EmptyString)
            = Some (initial_state scenario_C, String c EmptyString, "R"%string)).
  { intros [|[|[|i]]] c [= <-]; vm_compute; reflexivity. }
  assert (H3 : transitions scenario_C !! (initial_state scenario_C, "_"%string) = None)
    by (vm_compute; reflexivity).
  assert (H4 : 0 <= 2) by lia.
  split; [exact H1|]. split; [exact H4|].
  destruct (scanner_returns_input scenario_C "AAA" H1 H2 H3 2 H4) as (e & He & Hs & _).
  exists e. split; [exact He|exact Hs].
Defined.

(** * Further properties of the cipher *)

(** ** One character *)

Lemma space_not_in_alphabet : str_contains " " alphabet = false.
Proof. reflexivity. Qed.

Lemma encrypt_char_other (c : ascii) (shift : Z) :
  str_contains c alphabet = false → encrypt_char c shift = Some c.
Proof.
  intros Hc. unfold encrypt_char. rewrite Hc.
  by destruct (Ascii.eqb_spec c " ") as [->|_].
Qed.

Lemma encrypt_char_letter (c : ascii) (shift : Z) :
  str_contains c alphabet = true →
  ∃ pos, str_index c alphabet = Some pos ∧ 0 <= pos < 26 ∧
         str_getitem alphabet pos = Some c ∧
         encrypt_char c shift = str_getitem alphabet ((pos + shift) mod 26).
Proof.
  intros Hc. destruct (str_contains_index _ _ Hc) as [pos Hpos].
  destruct (str_index_getitem _ _ _ Hpos) as [Hrange Hget].
  exists pos. repeat split; [done|apply Hrange..|done|].
  unfold encrypt_char. rewrite Hc, Hpos.
  destruct (Ascii.eqb_spec c " ") as [->|_]; [|done].
  by rewrite space_not_in_alphabet in Hc.
Qed.

Lemma alphabet_letter_at (i : Z) :
  0 <= i < 26 →
  ∃ c, str_getitem alphabet i = Some c ∧
       str_contains c alphabet = true ∧ str_index c alphabet = Some i.
Proof.
  intros Hi. destruct (alphabet_getitem_index i Hi) as (c & ? & _ & ? & ?).
  by exists c.
Qed.

(** Every character is encrypted to some character of the same kind. *)
Lemma encrypt_char_kind (c : ascii) (shift : Z) :
  ∃ c', encrypt_char c shift = Some c' ∧
        str_contains c' alphabet = str_contains c alphabet.
Proof.
  destruct (str_contains c alphabet) eqn:Hc.
  - destruct (encrypt_char_letter c shift Hc) as (pos & _ & Hrange & _ & ->).
    destruct (alphabet_letter_at ((pos + shift) mod 26)) as (c' & -> & Hc' & _);
      [by apply Z.mod_pos_bound|].
    by exists c'.
  - exists c. by rewrite encrypt_char_other.
Qed.

Lemma encrypt_char_compose (c c1 : ascii) (a b : Z) :
  encrypt_char c a = Some c1 →
  encrypt_char c1 b = encrypt_char c (a + b).
Proof.
  intros Hc1. destruct (str_contains c alphabet) eqn:Hc.
  - destruct (encrypt_char_letter c a Hc) as (pos & Hpos & Hrange & _ & Ha).
    destruct (encrypt_char_letter c (a + b) Hc) as (pos' & Hpos' & _ & _ & ->).
    assert (pos' = pos) as -> by congruence.
    destruct (alphabet_letter_at ((pos + a) mod 26)) as (c' & Hget & Hc' & Hidx);
      [by apply Z.mod_pos_bound|].
    assert (c' = c1) as -> by congruence.
    destruct (encrypt_char_letter c1 b Hc') as (p1 & Hp1 & _ & _ & ->).
    assert (p1 = (pos + a) mod 26) as -> by congruence.
    by rewrite Zplus_mod_idemp_l, Z.add_assoc.
  - rewrite encrypt_char_other in Hc1 by done. injection Hc1 as <-.
    by rewrite !encrypt_char_other.
Qed.

Lemma encrypt_char_period (c : ascii) (shift j : Z) :
  encrypt_char c (shift + 26 * j) = encrypt_char c shift.
Proof.
  destruct (str_contains c alphabet) eqn:Hc.
  - destruct (encrypt_char_letter c shift Hc) as (pos & Hpos & _ & _ & ->).
    destruct (encrypt_char_letter c (shift + 26 * j) Hc) as (pos' & Hpos' & _ & _ & ->).
    assert (pos' = pos) as -> by congruence.
    by rewrite Z.add_assoc, (Z.mul_comm 26 j), Z_mod_plus_full.
  - by rewrite !encrypt_char_other.
Qed.

Lemma encrypt_char_zero (c : ascii) : encrypt_char c 0 = Some c.
Proof.
  destruct (str_contains c alphabet) eqn:Hc.
  - destruct (encrypt_char_letter c 0 Hc) as (pos & _ & Hrange & Hget & ->).
    by rewrite Z.add_0_r, Z.mod_small.
  - by apply encrypt_char_other.
Qed.

(** A letter is sent to itself only by a shift that is a multiple of 26. *)
Lemma encrypt_char_fixed (c : ascii) (shift : Z) :
  str_contains c alphabet = true →
  encrypt_char c shift = Some c → shift mod 26 = 0.
Proof.
  intros Hc Hfix.
  destruct (encrypt_char_letter c shift Hc) as (pos & Hpos & Hrange & _ & Henc).
  destruct (alphabet_letter_at ((pos + shift) mod 26)) as (c' & Hget & _ & Hidx);
    [by apply Z.mod_pos_bound|].
  assert (c' = c) as -> by congruence.
  assert (Hsame : (pos + shift) mod 26 = pos) by congruence.
  pose proof (Z.div_mod (pos + shift) 26 ltac:(lia)) as Hdiv.
  rewrite Hsame in Hdiv.
  replace shift with (((pos + shift) / 26) * 26) by lia.
  apply Z_mod_mult.
Qed.

Lemma decrypt_char_encrypt_char (c : ascii) (shift : Z) :
  decrypt_char c shift = encrypt_char c (- shift).
Proof.
  unfold decrypt_char, encrypt_char.
  destruct (Ascii.eqb c " "); [done|].
  destruct (str_contains c alphabet); [|done].
  destruct (str_index c alphabet) as [pos|]; [|done].
  cbn zeta. by rewrite Z.add_opp_r.
Qed.

Lemma encrypt_char_multiple (c : ascii) (shift : Z) :
  shift mod 26 = 0 → encrypt_char c shift = Some c.
Proof.
  intros Hmod.
  pose proof (Z.div_mod shift 26 ltac:(lia)) as Hdiv. rewrite Hmod in Hdiv.
  replace shift with (0 + 26 * (shift / 26)) by lia.
  by rewrite encrypt_char_period, encrypt_char_zero.
Qed.

Lemma encrypt_decrypt_char (c : ascii) (shift : Z) :
  ∃ d, decrypt_char c shift = Some d ∧ encrypt_char d shift = Some c.
Proof.
  rewrite decrypt_char_encrypt_char.
  destruct (encrypt_char_kind c (- shift)) as (d & Hd & _).
  exists d. split; [done|].
  rewrite (encrypt_char_compose c d (- shift) shift Hd).
  replace (- shift + shift) with 0 by lia. apply encrypt_char_zero.
Qed.

(** ** Whole messages *)

(** [caesar_encrypt] works character by character. *)
Lemma caesar_encrypt_pointwise (message : string) (shift : Z) :
  ∃ encrypted,
    caesar_encrypt message shift = Some encrypted ∧
    String.length encrypted = String.length message ∧
    ∀ (i : nat) (a : ascii), String.get i message = Some a →
      ∃ b, String.get i encrypted = Some b ∧ encrypt_char a shift = Some b.
Proof.
  induction message as [|char rest (encrypted & Henc & Hlen & Hget)].
  - exists EmptyString. repeat split. intros i a Hi. by destruct i.
  - destruct (encrypt_char_kind char shift) as (c & Hc & _).
    exists (String c encrypted). cbn [caesar_encrypt]. rewrite Hc, Henc.
    split; [done|]. split; [simpl; by rewrite Hlen|].
    intros [|i] a Hi; simpl in Hi.
    + injection Hi as <-. by exists c.
    + by apply Hget.
Qed.

(** X10. Decrypting is encrypting with the opposite shift. *)
Theorem caesar_decrypt_is_opposite_encrypt (message : string) (shift : Z) :
  caesar_decrypt message shift = caesar_encrypt message (- shift).
Proof.
  induction message as [|char rest IH]; [done|].
  cbn [caesar_decrypt caesar_encrypt].
  by rewrite decrypt_char_encrypt_char, IH.
Qed.

(** X11. Shifts add up: encrypting with [a] and then with [b] is
    encrypting once with [a + b]. *)
Theorem caesar_encrypt_twice (message : string) (a b : Z) :
  ∃ once,
    caesar_encrypt message a = Some once ∧
    caesar_encrypt once b = caesar_encrypt message (a + b).
Proof.
  induction message as [|char rest (once & Honce & Htwice)]; [by exists EmptyString|].
  destruct (encrypt_char_kind char a) as (c & Hc & _).
  exists (String c once). cbn [caesar_encrypt]. rewrite Hc, Honce.
  split; [done|].
  by rewrite (encrypt_char_compose char c a b Hc), Htwice.
Qed.

(** X12. Only the shift modulo 26 matters: adding a multiple of 26 to the
    shift gives the same ciphertext, and a shift that is a multiple of 26
    (0, 26, the key Z) returns the message unchanged. *)
Theorem caesar_encrypt_period (message : string) (shift j : Z) :
  caesar_encrypt message (shift + 26 * j) = caesar_encrypt message shift ∧
  caesar_encrypt message (26 * j) = Some message.
Proof.
  induction message as [|char rest [IH1 IH2]]; [done|].
  cbn [caesar_encrypt]. rewrite IH1, IH2, encrypt_char_period.
  split; [done|].
  rewrite (encrypt_char_multiple char (26 * j)); [done|].
  rewrite Z.mul_comm. apply Z_mod_mult.
Qed.

(** X13. The round trip in the other order: [caesar_decrypt] returns a
    string that [caesar_encrypt] with the same shift turns back into the
    message. *)
Theorem caesar_encrypt_decrypt (message : string) (shift : Z) :
  ∃ decrypted,
    caesar_decrypt message shift = Some decrypted ∧
    caesar_encrypt decrypted shift = Some message.
Proof.
  induction message as [|char rest (decrypted & Hdec & Henc)]; [by exists EmptyString|].
  destruct (encrypt_decrypt_char char shift) as (d & Hd & Hback).
  exists (String d decrypted). simpl. by rewrite Hd, Hdec, Hback, Henc.
Qed.

(** X14. The ciphertext has the shape of the message: the same length, a
    letter of A-Z wherever the message has one, and every other character
    (space, lowercase letter, digit, punctuation) unchanged in its
    place. *)
Theorem caesar_encrypt_keeps_shape (message : string) (shift : Z) :
  ∃ encrypted,
    caesar_encrypt message shift = Some encrypted ∧
    String.length encrypted = String.length message ∧
    ∀ (i : nat) (a : ascii), String.get i message = Some a →
      ∃ b, String.get i encrypted = Some b ∧
           str_contains b alphabet = str_contains a alphabet ∧
           (str_contains a alphabet = false → b = a).
Proof.
  destruct (caesar_encrypt_pointwise message shift) as (encrypted & Henc & Hlen & Hget).
  exists encrypted. do 2 (split; [done|]).
  intros i a Hi. destruct (Hget i a Hi) as (b & Hb & Hab).
  exists b. split; [done|].
  destruct (encrypt_char_kind a shift) as (b' & Hb' & Hkind).
  assert (b' = b) as -> by congruence.
  split; [done|].
  intros Hother. rewrite encrypt_char_other in Hab by done. congruence.
Qed.

(** X15. A letter of the message is left as it is exactly when the shift
    is a multiple of 26; any other shift changes every letter. *)
Theorem caesar_encrypt_changes_letters (message : string) (shift : Z) :
  ∃ encrypted,
    caesar_encrypt message shift = Some encrypted ∧
    ∀ (i : nat) (a : ascii), String.get i message = Some a →
      str_contains a alphabet = true →
      ∃ b, String.get i encrypted = Some b ∧ (b = a ↔ shift mod 26 = 0).
Proof.
  destruct (caesar_encrypt_pointwise message shift) as (encrypted & Henc & _ & Hget).
  exists encrypted. split; [done|].
  intros i a Hi Ha. destruct (Hget i a Hi) as (b & Hb & Hab).
  exists b. split; [done|]. split.
  - intros ->. by apply (encrypt_char_fixed a).
  - intros Hmod. rewrite encrypt_char_multiple in Hab by done. congruence.
Qed.

(** * Keys and generated cases *)

(** X16. A single letter as key stands for its position in the alphabet
    counted from 1 (A is 1, Z is 26), the same for the capital and the
    small letter. *)
Theorem parse_key_letter (max_str_digits : nat) (c : ascii) (pos : Z) :
  str_index c alphabet = Some pos →
  parse_key max_str_digits (String c EmptyString) = Returned (pos + 1) ∧
  parse_key max_str_digits (String (ascii_of_N (N_of_ascii c + 32)) EmptyString)
  = Returned (pos + 1) ∧
  1 <= pos + 1 <= 26.
Proof.
  intros Hpos. destruct (str_index_getitem _ _ _ Hpos) as [Hrange Hget].
  change (Z.of_nat (String.length alphabet)) with 26 in Hrange.
  rewrite <- (Z2Nat.id pos) in * by lia.
  assert (Hn : (Z.to_nat pos < 26)%nat) by lia.
  remember (Z.to_nat pos) as n eqn:Heqn. clear Heqn Hrange Hpos.
  do 26 (destruct n as [|n];
         [vm_compute in Hget; injection Hget as <-; vm_compute; repeat split; discriminate|]).
  lia.
Qed.

Lemma parse_key_letter_witness :
  str_index "D" alphabet = Some 3 ∧
  parse_key 4300 "D" = Returned 4 ∧ parse_key 4300 "d" = Returned 4.
Proof.
  assert (H : str_index "D" alphabet = Some 3) by reflexivity.
  destruct (parse_key_letter 4300 "D" 3 H) as (Hup & Hlow & _).
  split; [exact H|]. split; [exact Hup|exact Hlow].
Defined.

Lemma length_py_upper (s : string) : (String.length s ≤ length (py_upper s))%nat.
Proof.
  induction s as [|c rest IH]; [done|].
  cbn [py_upper String.length]. rewrite length_app.
  assert (1 ≤ length (upper_char c))%nat; [|lia].
  unfold upper_char. cbn zeta.
  repeat match goal with |- context [if ?b then _ else _] => destruct b end; simpl; lia.
Qed.

(** X17. A key that is not a digit string must be one character long:
    the empty key and every longer key make [parse_key] raise
    [TypeError]. *)
Theorem parse_key_wrong_length (max_str_digits : nat) (key_str : string) :
  str_isdigit key_str = false →
  String.length key_str ≠ 1%nat →
  parse_key max_str_digits key_str = Raised TypeError.
Proof.
  intros Hdigit Hlen. unfold parse_key. rewrite Hdigit.
  pose proof (length_py_upper key_str) as Hup.
  destruct key_str as [|c rest]; [done|].
  destruct (py_upper (String c rest)) as [|x [|y l]] eqn:Hu; [done| |done].
  simpl in Hup, Hlen. lia.
Qed.

Lemma parse_key_wrong_length_witness :
  str_isdigit "3A" = false ∧ String.length "3A" ≠ 1%nat ∧
  parse_key 4300 "3A" = Raised TypeError.
Proof.
  assert (H1 : str_isdigit "3A" = false) by reflexivity.
  assert (H2 : String.length "3A" ≠ 1%nat) by (simpl; lia).
  split; [exact H1|]. split; [exact H2|].
  exact (parse_key_wrong_length 4300 "3A" H1 H2).
Defined.

(** X18. [parse_key] does not check that a one-character key is a
    letter: every character below 128 that is no digit is accepted, and
    the shift it gives lies in 1..26 exactly for the letters A-Z and
    a-z (the key # gives -29). *)
Theorem parse_key_any_character (max_str_digits : nat) (c : ascii) :
  code c < 128 →
  is_decimal c = false →
  ∃ shift, parse_key max_str_digits (String c EmptyString) = Returned shift ∧
    -64 <= shift <= 63 ∧
    (1 <= shift <= 26 ↔ 65 <= code c <= 90 ∨ 97 <= code c <= 122).
Proof.
  intros Hc Hd.
  destruct c as [[] [] [] [] [] [] [] []];
    try (vm_compute in Hc; discriminate Hc);
    try (vm_compute in Hd; discriminate Hd);
    clear Hc Hd;
    (eexists; split; [vm_compute; reflexivity|]);
    match goal with
    | |- context [code ?x] =>
        let v := eval vm_compute in (code x) in change (code x) with v
    end; lia.
Qed.

Lemma parse_key_any_character_witness :
  code "#" < 128 ∧ is_decimal "#" = false ∧
  ∃ shift, parse_key 4300 "#" = Returned shift ∧ -64 <= shift <= 63.
Proof.
  assert (H1 : code "#" < 128) by (vm_compute; reflexivity).
  assert (H2 : is_decimal "#" = false) by reflexivity.
  split; [exact H1|]. split; [exact H2|].
  destruct (parse_key_any_character 4300 "#" H1 H2) as (shift & Hs & Hr & _).
  exists shift. split; [exact Hs|exact Hr].
Defined.

Lemma caesar_encrypt_then_decrypt (message encrypted : string) (shift : Z) :
  caesar_encrypt message shift = Some encrypted →
  caesar_decrypt encrypted shift = Some message.
Proof.
  revert encrypted. induction message as [|char rest IH]; intros encrypted Henc.
  - by injection Henc as <-.
  - cbn [caesar_encrypt] in Henc.
    destruct (decrypt_encrypt_char char shift) as (c & Hc & Hback).
    rewrite Hc in Henc.
    destruct (caesar_encrypt rest shift) as [result|]; [|done].
    injection Henc as <-. cbn [caesar_decrypt].
    by rewrite Hback, (IH result eq_refl).
Qed.

(** Splitting at the first '#' undoes joining with '#', as long as the
    first part has no '#' of its own, which a part cut off by
    [split_hash] never has. *)
Lemma split_hash_join (s key_part message_part : string) :
  split_hash s = Some (key_part, message_part) →
  s = String.append key_part (String "#" message_part) ∧
  ∀ other, split_hash (String.append key_part (String "#" other))
           = Some (key_part, other).
Proof.
  revert key_part. induction s as [|c rest IH]; intros key_part Hs; [done|].
  cbn [split_hash] in Hs. destruct (Ascii.eqb_spec c "#") as [->|Hc].
  - injection Hs as <- <-. by split.
  - destruct (split_hash rest) as [[k msg]|]; [|done].
    injection Hs as <- <-. destruct (IH k eq_refl) as [-> Hsplit].
    split; [done|]. intros other. rewrite append_String. cbn [split_hash].
    destruct (Ascii.eqb_spec c "#"); [done|]. by rewrite Hsplit.
Qed.

Lemma decrypt_case_decrypts_back (max_str_digits : nat) (caso line : string) :
  decrypt_case max_str_digits caso = Some line →
  decrypts_back max_str_digits caso line.
Proof.
  unfold decrypt_case. intros Hline.
  destruct (split_hash caso) as [[key_part message_part]|] eqn:Hsplit; [|done].
  destruct (parse_key max_str_digits key_part) as [shift|] eqn:Hkey; [|done].
  destruct (caesar_encrypt message_part shift) as [encrypted|] eqn:Henc; [|done].
  injection Hline as <-.
  exists key_part, message_part, encrypted, shift.
  split; [done|]. split; [by apply (split_hash_join caso key_part message_part)|].
  split; [done|]. by apply caesar_encrypt_then_decrypt.
Qed.

Lemma decrypt_cases_decrypt_back (max_str_digits : nat) (casos : list string) :
  ∀ lines, decrypt_cases max_str_digits casos = Some lines →
  Forall2 (decrypts_back max_str_digits) casos lines.
Proof.
  induction casos as [|caso rest IH]; intros lines Hlines.
  - injection Hlines as <-. constructor.
  - cbn [decrypt_cases] in Hlines.
    destruct (decrypt_case max_str_digits caso) as [line|] eqn:Hline; [|done].
    destruct (decrypt_cases max_str_digits rest) as [lines'|]; [|done].
    injection Hlines as <-. constructor; [|by apply IH].
    by apply decrypt_case_decrypts_back.
Qed.

(** X19. The generated decryption cases are correct: whatever the
    interpreter's digit limit, [generate_correct_decrypt_cases] returns
    one line per encryption case, in order, with the key of that case,
    and the text of each line decrypts with the shift of its key to the
    text of the case. *)
Theorem generated_cases_decrypt_back (max_str_digits : nat) :
  ∃ lines,
    generate_correct_decrypt_cases max_str_digits = Some lines ∧
    length lines = 10%nat ∧
    Forall2 (decrypts_back max_str_digits) casos_encriptar lines.
Proof.
  assert (Hsome : ∃ lines, generate_correct_decrypt_cases max_str_digits = Some lines ∧
                           length lines = 10%nat).
  { vm_compute. eexists. split; reflexivity. }
  destruct Hsome as (lines & Hlines & Hlen).
  exists lines. do 2 (split; [done|]).
  by apply decrypt_cases_decrypt_back.
Qed.

Lemma caesar_encrypt_keeps_shape_witness :
  ∃ encrypted,
    caesar_encrypt "Hi, TURING" 3 = Some encrypted ∧
    String.get 1 encrypted = Some "i"%char ∧
    ∃ b, String.get 4 encrypted = Some b ∧ str_contains b alphabet = true.
Proof.
  destruct (caesar_encrypt_keeps_shape "Hi, TURING" 3) as (encrypted & Henc & _ & Hget).
  exists encrypted. split; [exact Henc|].
  destruct (Hget 1%nat "i"%char eq_refl) as (b1 & Hb1 & _ & Hsame).
  destruct (Hget 4%nat "T"%char eq_refl) as (b4 & Hb4 & Hkind & _).
  split.
  - rewrite Hb1. f_equal. apply Hsame. reflexivity.
  - exists b4. split; [exact Hb4|]. rewrite Hkind. reflexivity.
Defined.

Lemma caesar_encrypt_changes_letters_witness :
  ∃ encrypted,
    caesar_encrypt "AB" 27 = Some encrypted ∧
    ∃ b, String.get 0 encrypted = Some b ∧ b ≠ "A"%char.
Proof.
  destruct (caesar_encrypt_changes_letters "AB" 27) as (encrypted & Henc & Hget).
  exists encrypted. split; [exact Henc|].
  destruct (Hget 0%nat "A"%char eq_refl eq_refl) as (b & Hb & Hiff).
  exists b. split; [exact Hb|].
  intros Heq. apply Hiff in Heq. vm_compute in Heq. discriminate Heq.
Defined.

(** * A machine that was never loaded *)

Lemma step_fresh (Q Sigma Gamma : gset string) (q0 : string) (F : gset string)
    (delta : gmap (string * string) (string * string * string)) :
  q0 ∉ F →
  step (init Q Sigma Gamma q0 F delta)
  = step (load_tape (init Q Sigma Gamma q0 F delta) "").
Proof.
  intros Hacc. unfold step.
  rewrite !decide_False by done. reflexivity.
Qed.

(** X20. Running a machine straight after its construction, without
    [load_tape], is running it on the empty input: [run] returns the same
    string and counts the same number of transitions as after
    [load_tape("")]. *)
Theorem run_without_load (Q Sigma Gamma : gset string) (q0 : string) (F : gset string)
    (delta : gmap (string * string) (string * string * string)) (max_steps : Z) :
  ∃ out e e',
    run max_steps (init Q Sigma Gamma q0 F delta) = Some (Return out, e) ∧
    run max_steps (load_tape (init Q Sigma Gamma q0 F delta) "")
    = Some (Return out, e') ∧
    exit_steps e = exit_steps e' ∧
    exit_calls e = exit_calls e'.
Proof.
  destruct (run_returns max_steps (load_tape (init Q Sigma Gamma q0 F delta) ""))
    as (e' & He' & _); [simpl; lia|].
  destruct (run_returns max_steps (init Q Sigma Gamma q0 F delta))
    as (e & He & _); [simpl; lia|].
  pose proof (run_loop_of_run _ _ _ _ He) as Hloop.
  pose proof (run_loop_of_run _ _ _ _ He') as Hloop'.
  rewrite run_loop_S in Hloop, Hloop'.
  rewrite He, He'.
  destruct (0 <? max_steps).
  - destruct (decide (q0 ∈ F)) as [Hacc|Hacc].
    + rewrite step_accept in Hloop, Hloop' by done.
      injection Hloop as <-. injection Hloop' as <-.
      by eexists _, _, _.
    + rewrite (step_fresh _ _ _ _ _ _ Hacc) in Hloop.
      assert (e = e') as -> by congruence.
      by eexists _, _, _.
  - injection Hloop as <-. injection Hloop' as <-.
    by eexists _, _, _.
Qed.
